(** * Aurora: Scripts/minifyShadersFolder.py

    A shallow embedding of the shader minifier script and the properties of
    its freshness gate, binary packer, minification transform and directory
    table.

    Python values are modelled as follows:
    - a [str] is the list of its Unicode code points ([N]);
    - a [bytes]/[bytearray] is a [list byte];
    - [st_mtime] is a binary64 float ([PrimFloat.float]);
    - the operating system (argv, glob, stat, open, subprocess, platform,
      os.path) is a record of oracles, [World];
    - the script itself is a function from a [World] to an [Outcome]: what
      was printed, what was written, and how the process ended. *)

From Stdlib Require Import Strings.String Strings.Ascii Strings.Byte.
From Stdlib Require Import Numbers.DecimalString.
From Stdlib Require Import Floats.PrimFloat.
From Stdlib Require Import Bool Arith NArith ZArith Lia List.
Import ListNotations.

(** ** Python strings *)

Definition char := N.
Definition str := list char.

Definition lit (s : string) : str :=
  map N_of_ascii (list_ascii_of_string s).

Definition NL : char := 10%N.      (* line feed *)
Definition CR : char := 13%N.      (* carriage return *)
Definition SP : char := 32%N.      (* space *)
Definition TAB : char := 9%N.      (* horizontal tab *)
Definition DQ : char := 34%N.      (* double quote *)
Definition SLASH : char := 47%N.   (* forward slash *)
Definition BS : char := 92%N.      (* backslash *)
Definition LETTER_n : char := 110%N.

Definition str_eqb (a b : str) : bool :=
  if list_eq_dec N.eq_dec a b then true else false.

(** [needle in hay] on strings. *)
Fixpoint startswith (needle hay : str) : bool :=
  match needle, hay with
  | [], _ => true
  | _ :: _, [] => false
  | a :: needle', b :: hay' => N.eqb a b && startswith needle' hay'
  end.

Fixpoint str_in (needle hay : str) : bool :=
  startswith needle hay ||
  match hay with
  | [] => false
  | _ :: hay' => str_in needle hay'
  end.

(** [str(n)] and ["%d" % n] for a non-negative integer. *)
Definition str_of_nat (n : nat) : str :=
  lit (NilZero.string_of_uint (Nat.to_uint n)).

(** ** Regular expressions: [re.sub]

    [re.sub(pattern, repl, s)] replaces the leftmost non-overlapping matches
    of [pattern], scanning left to right.  A pattern is given by its matcher:
    the length of the match that starts at the head of the remaining text, if
    there is one.  None of the script's patterns matches the empty string, so
    a match of length 0 is treated as no match.  [skip] counts the characters
    of the current match that are still to be consumed. *)

Definition matcher := str -> option nat.

Fixpoint sub_go (m : matcher) (repl : str) (skip : nat) (s : str) : str :=
  match s with
  | [] => []
  | c :: s' =>
      match skip with
      | S k => sub_go m repl k s'
      | O =>
          match m s with
          | Some (S k) => repl ++ sub_go m repl k s'
          | _ => c :: sub_go m repl 0 s'
          end
      end
  end.

Definition re_sub (m : matcher) (repl : str) (s : str) : str :=
  sub_go m repl 0 s.

(** A pattern made of one literal character. *)
Definition match_char (a : char) : matcher :=
  fun s =>
    match s with
    | c :: _ => if N.eqb c a then Some 1 else None
    | [] => None
    end.

(** [.*\n]: [.] matches everything but a line feed, so the match ends at the
    first line feed and fails when there is none. *)
Fixpoint dot_star_nl (s : str) : option nat :=
  match s with
  | [] => None
  | c :: s' => if N.eqb c NL then Some 1 else option_map S (dot_star_nl s')
  end.

(** [//.*\n] *)
Definition match_comment : matcher :=
  fun s =>
    match s with
    | a :: b :: s' =>
        if N.eqb a SLASH && N.eqb b SLASH
        then option_map (fun k => 2 + k) (dot_star_nl s')
        else None
    | _ => None
    end.

(** [\s] on a [str] pattern: the characters for which [str.isspace] holds. *)
Definition isspace (c : char) : bool :=
  ((9 <=? c) && (c <=? 13) || (28 <=? c) && (c <=? 32) ||
   (c =? 133) || (c =? 160) || (c =? 5760) ||
   (8192 <=? c) && (c <=? 8202) || (c =? 8232) || (c =? 8233) ||
   (c =? 8239) || (c =? 8287) || (c =? 12288))%N.

(** The class [[^\S\r\n]]: whitespace other than the two line terminators. *)
Definition hspace (c : char) : bool :=
  isspace c && negb (N.eqb c CR) && negb (N.eqb c NL).

Fixpoint span_len (p : char -> bool) (s : str) : nat :=
  match s with
  | c :: s' => if p c then S (span_len p s') else 0
  | [] => 0
  end.

(** [[^\S\r\n]+] (greedy) *)
Definition match_hspace : matcher :=
  fun s =>
    match span_len hspace s with
    | O => None
    | k => Some k
    end.

(** ** The minification transform (lines 181-190) *)

Definition strip_comment (ln : str) : str := re_sub match_comment [NL] ln.
Definition double_backslash (ln : str) : str := re_sub (match_char BS) [BS; BS] ln.
Definition escape_newline (ln : str) : str := re_sub (match_char NL) [BS; LETTER_n] ln.
Definition collapse_whitespace (ln : str) : str := re_sub match_hspace [SP] ln.
Definition escape_quote (ln : str) : str := re_sub (match_char DQ) [BS; DQ] ln.

Definition minify_line (ln : str) : str :=
  let ln := strip_comment ln in
  let ln := double_backslash ln in
  let ln := escape_newline ln in
  let ln := collapse_whitespace ln in
  let ln := escape_quote ln in
  ln.

(** Unescaping, following the spec's words: the three escapes of the
    transform are read back left to right, as a C++ compiler reads the
    literal.  A backslash before any other character is kept. *)
Fixpoint unescape (s : str) : str :=
  match s with
  | [] => []
  | c :: s' =>
      if N.eqb c BS then
        match s' with
        | d :: s'' =>
            if N.eqb d BS then BS :: unescape s''
            else if N.eqb d LETTER_n then NL :: unescape s''
            else if N.eqb d DQ then DQ :: unescape s''
            else c :: unescape s'
        | [] => [c]
        end
      else c :: unescape s'
  end.

(** ** Reading a source file (line 159)

    The file is opened in text mode with universal newlines: every line
    ending is handed to the script as a single line feed.  [readlines] keeps
    the terminators; only the last line may lack one. *)

Fixpoint universal_newlines (s : str) : str :=
  match s with
  | [] => []
  | c :: s' =>
      if N.eqb c CR then
        match s' with
        | d :: s'' =>
            if N.eqb d NL then NL :: universal_newlines s''
            else NL :: universal_newlines s'
        | [] => [NL]
        end
      else c :: universal_newlines s'
  end.

Fixpoint splitlines_keepends (cur : str) (s : str) : list str :=
  match s with
  | [] => match cur with [] => [] | _ => [cur] end
  | c :: s' =>
      if N.eqb c NL then (cur ++ [c]) :: splitlines_keepends [] s'
      else splitlines_keepends (cur ++ [c]) s'
  end.

Definition readlines (text : str) : list str :=
  splitlines_keepends [] (universal_newlines text).

(** ** One string constant (lines 172-208) *)

(** The [#line] statement put in front of the lines (line 173). *)
Definition line_directive (hlslFile : str) : str :=
  lit "#line 1 " ++ [DQ] ++ re_sub (match_char BS) [SLASH] hlslFile ++ [DQ; NL].

(** The loop over the lines: the segments flushed on the way, each longer
    than 100 characters, and what is left in [currOutputStr] at the end. *)
Fixpoint line_loop (numLines : nat) (lines : list str) (lineNo : nat)
    (currOutputStr : str) : list str * str :=
  match lines with
  | [] => ([], currOutputStr)
  | ln :: rest =>
      let ln := minify_line ln in
      let lineNo := lineNo + 1 in
      let ln := if lineNo =? numLines then ln ++ [BS; LETTER_n] else ln in
      let currOutputStr := currOutputStr ++ ln in
      if 100 <? length currOutputStr then
        let '(flushed, last) := line_loop numLines rest lineNo [] in
        (currOutputStr :: flushed, last)
      else line_loop numLines rest lineNo currOutputStr
  end.

Definition file_segments (hlslFile : str) (lines : list str) : list str * str :=
  let lines := line_directive hlslFile :: lines in
  line_loop (length lines) lines 0 [].

(** What line 204 and line 208 write for a segment. *)
Definition flushed_segment (seg : str) : str :=
  [TAB; DQ] ++ seg ++ [DQ; SP; BS; NL].
Definition final_segment (seg : str) : str :=
  [TAB; TAB; DQ] ++ seg ++ [DQ; SP; NL; TAB] ++ lit ";" ++ [NL].

(** The value of the generated string constant: the adjacent literals,
    concatenated as the C++ compiler does. *)
Definition string_constant (hlslFile : str) (lines : list str) : str :=
  let '(flushed, last) := file_segments hlslFile lines in
  concat flushed ++ last.

(** Escaped-newline tokens of a literal, counted as the literal is read: an
    escaped backslash followed by the letter n is not one. *)
Fixpoint newline_tokens (s : str) : nat :=
  match s with
  | [] => 0
  | c :: s' =>
      if N.eqb c BS then
        match s' with
        | d :: s'' => (if N.eqb d LETTER_n then 1 else 0) + newline_tokens s''
        | [] => 0
        end
      else newline_tokens s'
  end.

(** ** The binary packer's word array (lines 110-121) *)

Definition hex_digit (n : N) : char :=
  if (n <? 10)%N then (48 + n)%N else (87 + n)%N.

(** [bytes.hex()] of one byte: two lower-case digits. *)
Definition hex_byte (b : byte) : str :=
  let n := Byte.to_N b in [hex_digit (n / 16); hex_digit (n mod 16)].

(** [math.ceil(numBytes / 4)]; the float division is exact for every length
    a buffer can have. *)
Definition ceil_div4 (numBytes : nat) : nat := (numBytes + 3) / 4.

(** [bytes([data[i*4+3], data[i*4+2], data[i*4+1], data[i*4+0]])]; [None]
    when an index is out of range (IndexError). *)
Definition word_bytes (data : list byte) (i : nat) : option (list byte) :=
  match nth_error data (i * 4 + 3), nth_error data (i * 4 + 2),
        nth_error data (i * 4 + 1), nth_error data (i * 4 + 0) with
  | Some b3, Some b2, Some b1, Some b0 => Some [b3; b2; b1; b0]
  | _, _, _, _ => None
  end.

(** What one round of the loop appends to [headerStr]. *)
Definition word_token (numWords i : nat) (wordBytes : list byte) : str :=
  lit "0x" ++ flat_map hex_byte wordBytes
  ++ (if i <? numWords - 1 then lit ", " else [])
  ++ (if i mod 8 =? 7 then [NL] else []).

Fixpoint word_loop (data : list byte) (numWords : nat) (range : list nat)
    (headerStr : str) : option str :=
  match range with
  | [] => Some headerStr
  | i :: range' =>
      match word_bytes data i with
      | None => None
      | Some wordBytes =>
          word_loop data numWords range' (headerStr ++ word_token numWords i wordBytes)
      end
  end.

Definition array_declaration (numWords : nat) (variableName : str) : str :=
  lit "static const array<unsigned int, " ++ str_of_nat numWords ++ lit "> "
  ++ variableName ++ lit " = {" ++ [NL].

(** The text of the secondary header, or [None] for an IndexError. *)
Definition pack_words (variableName : str) (data : list byte) : option str :=
  let numBytes := length data in
  let numWords := ceil_div4 numBytes in
  let headerStr := array_declaration numWords variableName in
  match word_loop data numWords (seq 0 numWords) headerStr with
  | None => None
  | Some headerStr => Some (headerStr ++ lit "};" ++ [NL])
  end.

(** ** The environment of a run *)

(** [os.path] of the platform the script runs on. *)
Record OsPath := {
  basename : str -> str;
  dirname : str -> str;
  splitext : str -> str * str;
  join : str -> str -> str
}.

Record World := {
  argv : list str;                               (* sys.argv *)
  os_path : OsPath;
  glob_glob : str -> list str;                   (* glob.glob(pattern) *)
  stat_mtime : str -> option float;              (* os.stat(p).st_mtime; None: it raises *)
  platform_system : str;                         (* platform.system() *)
  subprocess_run : list str -> option (Z * option str);
    (* return code and result.stderr.decode(), None when the bytes do not
       decode; None for the whole: subprocess.run raises *)
  read_bytes : str -> option (list byte);        (* open(p, "rb").read(); None: it raises *)
  open_write : str -> bool;                      (* does open(p, "w") succeed *)
  read_text : str -> option str;                 (* the text of open(p, "r"), decoded; None: open raises *)
  same_file : str -> str -> bool                 (* do the two paths name one file *)
}.

(** The inputs are taken to decode: a source file that opens but whose
    bytes are not text in the locale's encoding is outside this model. *)

(** ** Effects of the script: printing, writing, exiting *)

Inductive Exn := OSError | IndexError | UnicodeDecodeError.

Inductive Status :=
| Finished                (* ran to the last line: exit status 0 *)
| SysExit (code : Z)      (* sys.exit(code) *)
| Uncaught (e : Exn).     (* an exception that nothing catches *)

(** The log holds what the script printed and what it wrote through each
    of the two files it opens for writing: [packed] is the path and text of
    the [with open(compiledFile, 'w')] of line 122, [header] the text
    written so far through [headerOutput], opened at line 130.  The two
    paths may name one file; [file_after] below tells what a path holds
    once both have been written. *)
Record Log := {
  printed : list str;            (* the lines printed, in order *)
  packed : option (str * str);   (* the secondary header: path and text *)
  header : option str            (* the text of outputFile once it is opened *)
}.

Definition empty_log : Log :=
  {| printed := []; packed := None; header := None |}.

Inductive Res (A : Type) : Type :=
| Ret (a : A) (l : Log)
| Stop (s : Status) (l : Log).
Arguments Ret {A} a l.
Arguments Stop {A} s l.

Definition Script (A : Type) : Type := Log -> Res A.

Definition ret {A} (a : A) : Script A := fun l => Ret a l.

Definition bind {A B} (m : Script A) (k : A -> Script B) : Script B :=
  fun l =>
    match m l with
    | Ret a l' => k a l'
    | Stop s l' => Stop s l'
    end.

Notation "x <- m ;; k" := (bind m (fun x => k))
  (at level 61, m at next level, right associativity).
Notation "m ;; k" := (bind m (fun _ => k))
  (at level 61, right associativity).

Definition print (s : str) : Script unit :=
  fun l => Ret tt {| printed := printed l ++ [s]; packed := packed l; header := header l |}.

Definition sys_exit {A} (code : Z) : Script A :=
  fun l => Stop (SysExit code) l.

Definition raise {A} (e : Exn) : Script A :=
  fun l => Stop (Uncaught e) l.

Definition open_header : Script unit :=
  fun l => Ret tt {| printed := printed l; packed := packed l; header := Some [] |}.

Definition write_header (s : str) : Script unit :=
  fun l =>
    Ret tt {| printed := printed l; packed := packed l;
              header := option_map (fun text => text ++ s) (header l) |}.

Definition write_packed (path text : str) : Script unit :=
  fun l => Ret tt {| printed := printed l; packed := Some (path, text); header := header l |}.

Fixpoint print_all (ls : list str) : Script unit :=
  match ls with
  | [] => ret tt
  | s :: ls' => print s ;; print_all ls'
  end.

(** ** Command line (lines 13-35) *)

Definition usage : list str :=
  [ lit "Usage: python minifyShadersFolder.py inputFolder outputFile [slangCompiler] [mainEntryPoint] [slangTarget]";
    lit "  inputFolder - Folder containing Slang files";
    lit "  outputMinifiedFile - Output minified C++ header file";
    lit "  slangCompiler - Folder for slang executable to compile main entryPoint file (if omitted, just minifies no compilation)";
    lit "  mainEntryPoint - Main entry point filename, also used for precompiled DXIL C++ header filename (if omitted, assumes MainEntryPoint)";
    lit "  slangTarget - Slangc compiling target (metal, dxil, spirv)" ].

Record Args := {
  hlslFolder : str;
  outputFile : str;
  nameSpaceName : str;
  slangc : str;
  mainEntryPoint : str;
  target : str
}.

Definition arg (args : list str) (i : nat) : str := nth i args [].

Definition parse_args (P : OsPath) (args : list str) : Args :=
  let hlslFolder := arg args 1 in
  let outputFile := arg args 2 in
  let nameSpaceName := fst (splitext P (basename P outputFile)) in
  let slangc := [] in
  let slangc := if length args =? 4 then arg args 3 else slangc in
  let mainEntryPoint := lit "MainEntryPoints" in
  let mainEntryPoint := if length args =? 5 then arg args 4 else mainEntryPoint in
  let target := [] in
  let mainEntryPoint := if length args =? 6 then arg args 5 else mainEntryPoint in
  {| hlslFolder := hlslFolder; outputFile := outputFile;
     nameSpaceName := nameSpaceName; slangc := slangc;
     mainEntryPoint := mainEntryPoint; target := target |}.

(** ** The freshness gate (lines 37-62) *)

Definition glob_pattern (hlslFolder : str) : str := hlslFolder ++ lit "/*.*sl*".

(** Lines 41-45: a failing [os.stat] of the output gives 0. *)
Definition output_mod_time (w : World) (outputFile : str) : float :=
  match stat_mtime w outputFile with
  | Some t => t
  | None => 0%float
  end.

(** Lines 52-57: the loop over the files; [None] when [os.stat] of an input
    raises. *)
Fixpoint scan_files (w : World) (mainEntryPoint : str) (outputModTime : float)
    (files : list str) (rebuildNeeded : bool) (entryPointFile : str)
    : option (bool * str) :=
  match files with
  | [] => Some (rebuildNeeded, entryPointFile)
  | hlslFile :: files' =>
      let entryPointFile :=
        if str_in mainEntryPoint hlslFile then hlslFile else entryPointFile in
      match stat_mtime w hlslFile with
      | None => None
      | Some fileModTime =>
          let rebuildNeeded :=
            if PrimFloat.ltb outputModTime fileModTime then true else rebuildNeeded in
          scan_files w mainEntryPoint outputModTime files' rebuildNeeded entryPointFile
      end
  end.

Definition up_to_date_message (outputFile : str) : str :=
  lit "Nothing to be done, output header file " ++ outputFile ++ lit " up to date".

(** ** The binary packer (lines 64-123) *)

Definition packer_enabled (slangc entryPointFile : str) : bool :=
  (0 <? length slangc) && (0 <? length entryPointFile).

(** Lines 67-76. *)
Definition choose_target (w : World) (target : str) : Script str :=
  if negb (str_eqb target (lit "metal")) || negb (str_eqb target (lit "dxil"))
     || negb (str_eqb target (lit "spirv"))
  then
    if str_eqb (platform_system w) (lit "Darwin") then ret (lit "metal")
    else if str_eqb (platform_system w) (lit "Windows") then ret (lit "dxil")
    else if str_eqb (platform_system w) (lit "Linux") then ret (lit "spirv")
    else
      print (lit "Unsupported platform: " ++ platform_system w) ;;
      sys_exit (-1)
  else ret target.

Record Job := {
  compiledFile : str;
  compiledTempFile : str;
  variableName : str;
  cmd : list str;
  announcement : str
}.

Definition announce (entryPointFile slangc kind compiledFile : str) : str :=
  lit "Compiling main entry point " ++ entryPointFile
  ++ lit " with Slang compiler " ++ slangc
  ++ lit " to " ++ kind ++ lit " in header " ++ compiledFile.

(** Lines 78-102. *)
Definition compile_job (P : OsPath) (a : Args) (entryPointFile target : str) : Job :=
  if str_eqb target (lit "metal") then
    let headerFileName := mainEntryPoint a ++ lit ".h" in
    let metalFileName := mainEntryPoint a ++ lit ".metal" in
    let compiledFile := join P (dirname P (outputFile a)) headerFileName in
    {| compiledFile := compiledFile;
       compiledTempFile := join P (dirname P (outputFile a)) metalFileName;
       variableName := lit "g_s" ++ mainEntryPoint a ++ lit "metal";
       cmd := [slangc a; entryPointFile; lit "-target"; target; lit "-o";
               join P (dirname P (outputFile a)) metalFileName];
       announcement := announce entryPointFile (slangc a) (lit "MSL") compiledFile |}
  else if str_eqb target (lit "dxil") then
    let compiledFile := dirname P (outputFile a) ++ lit "/" ++ mainEntryPoint a ++ lit ".h" in
    let compiledTempFile := dirname P (outputFile a) ++ lit "/" ++ mainEntryPoint a ++ lit ".dxil" in
    {| compiledFile := compiledFile;
       compiledTempFile := compiledTempFile;
       variableName := lit "g_s" ++ mainEntryPoint a ++ lit "DXIL";
       cmd := [slangc a; entryPointFile; lit "-DDIRECTX=1";
               lit "-DRUNTIME_COMPILE_EVALUATE_MATERIAL_FUNCTION=1";
               lit "-target"; target; lit "-profile"; lit "lib_6_3"; lit "-o";
               compiledTempFile];
       announcement := announce entryPointFile (slangc a) (lit "DXIL") compiledFile |}
  else
    let compiledFile := dirname P (outputFile a) ++ lit "/" ++ mainEntryPoint a ++ lit ".h" in
    let compiledTempFile := dirname P (outputFile a) ++ lit "/" ++ mainEntryPoint a ++ lit ".spv" in
    {| compiledFile := compiledFile;
       compiledTempFile := compiledTempFile;
       variableName := lit "g_s" ++ mainEntryPoint a ++ lit "SPIRV";
       cmd := [slangc a; entryPointFile; lit "-target"; lit "spirv"; lit "-o";
               compiledTempFile];
       announcement := announce entryPointFile (slangc a) (lit "SPIRV") compiledFile |}.

Definition binary_packer (w : World) (a : Args) (entryPointFile : str) : Script unit :=
  target <- choose_target w (target a) ;;
  let job := compile_job (os_path w) a entryPointFile target in
  print (announcement job) ;;
  match subprocess_run w (cmd job) with
  | None => raise OSError
  | Some (returncode, stderr) =>
      if negb (returncode =? 0)%Z then
        print (lit "Compliation failed on " ++ entryPointFile) ;;
        match stderr with
        | None => raise UnicodeDecodeError
        | Some text =>
            print text ;;
            sys_exit (-1)
        end
      else
        match read_bytes w (compiledTempFile job) with
        | None => raise OSError
        | Some data =>
            match pack_words (variableName job) data with
            | None => raise IndexError
            | Some headerStr =>
                if open_write w (compiledFile job)
                then write_packed (compiledFile job) headerStr
                else raise OSError
            end
        end
  end.

(** ** The minifier (lines 126-223) *)

Definition directorySymbolName : str := lit "g_sDirectory".

(** Line 162. *)
Definition stringName (P : OsPath) (hlslFile : str) : str :=
  lit "g_s" ++ fst (splitext P (basename P hlslFile)).

(** Lines 137-138. *)
Definition directory_head : str :=
  [NL; TAB] ++ lit "// Directory map, used to get file contents from HLSL filename." ++ [NL]
  ++ [TAB] ++ lit "static const std::map<std::string , const std::string &> "
  ++ directorySymbolName ++ lit " = {" ++ [NL].

(** Line 212. *)
Definition directory_entry (P : OsPath) (hlslFile : str) : str :=
  [TAB; TAB] ++ lit "{ " ++ [DQ] ++ basename P hlslFile ++ [DQ] ++ lit ", "
  ++ stringName P hlslFile ++ lit " }".

Definition directory_close : str := [NL; TAB] ++ lit "};" ++ [NL].
Definition directory_separator : str := lit "," ++ [NL].

(** Lines 141-142. *)
Definition header_head (w : World) (a : Args) (numFiles : nat) : str :=
  lit "// Minified HLSL header file." ++ [NL]
  ++ lit "// Automatically generated by " ++ arg (argv w) 0 ++ lit " from "
  ++ str_of_nat numFiles ++ lit " files in folder " ++ hlslFolder a ++ [NL]
  ++ lit "namespace " ++ nameSpaceName a ++ lit " {" ++ [NL].

(** Lines 169-170. *)
Definition constant_head (P : OsPath) (hlslFile : str) : str :=
  [NL; TAB] ++ lit "// Minified string created from " ++ hlslFile ++ [NL]
  ++ [TAB] ++ lit "static const std::string " ++ stringName P hlslFile ++ lit " = " ++ [NL].

(** Lines 204 and 208 for all the segments of one file. *)
Definition constant_body (hlslFile : str) (lines : list str) : str :=
  let '(flushed, last) := file_segments hlslFile lines in
  concat (map flushed_segment flushed) ++ final_segment last.

Definition minifying_message (n numFiles : nat) (hlslFile : str) : str :=
  [TAB] ++ lit " Minifying file " ++ str_of_nat (n + 1) ++ lit " of "
  ++ str_of_nat numFiles ++ lit ": " ++ hlslFile.

Definition conflict_message (P : OsPath) (hlslFile : str) : str :=
  lit "Invalid HLSL filename " ++ basename P hlslFile
  ++ lit " name conflict with built-in directory map named " ++ directorySymbolName.

(** One round of the loop of line 145; [n] and [directoryString] are the
    two variables it updates. *)
Definition minify_file (w : World) (numFiles : nat) (hlslFile : str)
    (n : nat) (directoryString : str) : Script (nat * str) :=
  let P := os_path w in
  print (minifying_message n numFiles hlslFile) ;;
  match read_text w hlslFile with
  | None =>
      print (lit "Failed to open: " ++ hlslFile) ;;
      sys_exit (-1)
  | Some text =>
      let lines := readlines text in
      (if str_eqb (stringName P hlslFile) directorySymbolName
       then print (conflict_message P hlslFile)
       else ret tt) ;;
      write_header (constant_head P hlslFile) ;;
      write_header (constant_body hlslFile lines) ;;
      let n := n + 1 in
      let directoryString := directoryString ++ directory_entry P hlslFile in
      let directoryString :=
        if n =? numFiles then directoryString ++ directory_close
        else directoryString ++ directory_separator in
      ret (n, directoryString)
  end.

Fixpoint minify_files (w : World) (numFiles : nat) (files : list str)
    (n : nat) (directoryString : str) : Script (nat * str) :=
  match files with
  | [] => ret (n, directoryString)
  | hlslFile :: files' =>
      r <- minify_file w numFiles hlslFile n directoryString ;;
      minify_files w numFiles files' (fst r) (snd r)
  end.

Definition minifier (w : World) (a : Args) (files : list str) : Script unit :=
  let numFiles := length files in
  print (lit "Minifying " ++ str_of_nat numFiles ++ lit " files from " ++ hlslFolder a) ;;
  (if open_write w (outputFile a) then open_header
   else
     print (lit "Failed to open output header: " ++ outputFile a) ;;
     sys_exit (-1)) ;;
  write_header (header_head w a numFiles) ;;
  r <- minify_files w numFiles files 0 directory_head ;;
  write_header (snd r) ;;
  write_header (lit "}" ++ [NL]).

(** ** The whole script *)

(** Lines 13-62: everything up to the early out.  The result is the parsed
    command line, the files and the entry-point file of a run that goes on. *)
Definition freshness_gate (w : World) : Script (Args * list str * str) :=
  if (length (argv w) <? 3) || (6 <? length (argv w)) then
    print_all usage ;;
    sys_exit (-1)
  else
    let a := parse_args (os_path w) (argv w) in
    let files := glob_glob w (glob_pattern (hlslFolder a)) in
    let outputModTime := output_mod_time w (outputFile a) in
    match scan_files w (mainEntryPoint a) outputModTime files false [] with
    | None => raise OSError
    | Some (rebuildNeeded, entryPointFile) =>
        if negb rebuildNeeded then
          print (up_to_date_message (outputFile a)) ;;
          sys_exit 0
        else ret (a, files, entryPointFile)
    end.

Definition main (w : World) : Script unit :=
  g <- freshness_gate w ;;
  let '(a, files, entryPointFile) := g in
  (if packer_enabled (slangc a) entryPointFile
   then binary_packer w a entryPointFile
   else ret tt) ;;
  minifier w a files.

Definition Outcome : Type := Status * Log.

Definition run (w : World) : Outcome :=
  match main w empty_log with
  | Ret _ l => (Finished, l)
  | Stop s l => (s, l)
  end.

(** ** A concrete environment: POSIX paths and a small shader folder *)

Module Posix.

Definition DOT : char := 46%N.

(** [s = before ++ c :: after] at the last [c] of [s]. *)
Fixpoint split_last (c : char) (s : str) : option (str * str) :=
  match s with
  | [] => None
  | x :: s' =>
      match split_last c s' with
      | Some (before, after) => Some (x :: before, after)
      | None => if N.eqb x c then Some ([], s') else None
      end
  end.

Fixpoint lstrip (c : char) (s : str) : str :=
  match s with
  | x :: s' => if N.eqb x c then lstrip c s' else s
  | [] => []
  end.

Definition rstrip (c : char) (s : str) : str := rev (lstrip c (rev s)).

Definition basename (p : str) : str :=
  match split_last SLASH p with
  | Some (_, tail) => tail
  | None => p
  end.

Definition dirname (p : str) : str :=
  match split_last SLASH p with
  | Some (before, _) =>
      let head := before ++ [SLASH] in
      if forallb (N.eqb SLASH) head then head else rstrip SLASH head
  | None => []
  end.

Definition splitext (p : str) : str * str :=
  let '(dir, base) :=
    match split_last SLASH p with
    | Some (before, tail) => (before ++ [SLASH], tail)
    | None => ([], p)
    end in
  match split_last DOT base with
  | Some (stem, ext) =>
      if existsb (fun c => negb (N.eqb c DOT)) stem
      then (dir ++ stem, DOT :: ext)
      else (p, [])
  | None => (p, [])
  end.

Definition join (a b : str) : str :=
  if startswith [SLASH] b then b
  else
    match rev a with
    | [] => a ++ b
    | x :: _ => if N.eqb x SLASH then a ++ b else a ++ [SLASH] ++ b
    end.

Definition path : OsPath := Build_OsPath basename dirname splitext join.

End Posix.

Module Sample.

Definition foo : str := lit "shaders/foo.hlsl".
Definition clash : str := lit "shaders/Directory.hlsl".
Definition entry : str := lit "shaders/MainEntryPoints.slang".

Definition foo_text : str :=
  lit "// comment" ++ [NL] ++ lit "float x = 1.0;" ++ [NL].

(** A folder with [files], all written at time 10 and all holding
    [foo_text]; the output header has the given mtime, if it exists; the
    compiler leaves [compiled] behind. *)
Definition world (args : list str) (files : list str) (output : option float)
    (system : str) (compiled : list byte) : World :=
  {| argv := args;
     os_path := Posix.path;
     glob_glob := fun pattern =>
       if str_eqb pattern (lit "shaders/*.*sl*") then files else [];
     stat_mtime := fun p =>
       if str_eqb p (lit "out/Shaders.h") then output
       else if existsb (str_eqb p) files then Some 10%float else None;
     platform_system := system;
     subprocess_run := fun _ => Some (0%Z, Some []);
     read_bytes := fun _ => Some compiled;
     open_write := fun _ => true;
     read_text := fun p =>
       if existsb (str_eqb p) files then Some foo_text else None;
     same_file := str_eqb |}.

Definition script : str := lit "minifyShadersFolder.py".
Definition args3 : list str := [script; lit "shaders"; lit "out/Shaders.h"].
Definition args4 : list str := args3 ++ [lit "slangc"].
Definition args5 : list str := args4 ++ [lit "MainEntryPoints"].
Definition args6 : list str := args5 ++ [lit "spirv"].

Definition linux : str := lit "Linux".
Definition darwin : str := lit "Darwin".

(** The header exists and is older than the sources. *)
Definition stale : World := world args3 [foo; clash] (Some 5%float) linux [].
(** The header is as recent as the sources. *)
Definition fresh : World := world args3 [foo; clash] (Some 10%float) linux [].
(** No header yet, and no shader in the folder. *)
Definition empty_folder : World := world args3 [] None linux [].
(** A compiler is given and the entry point is among the files. *)
Definition with_compiler (args : list str) (system : str) (compiled : list byte) : World :=
  world args [foo; entry] None system compiled.

(** Two files contain the entry-point name, and the compiler fails. *)
Definition entry_b : str := lit "shaders/MainEntryPointsB.slang".
Definition two_entries : World :=
  {| argv := args4;
     os_path := Posix.path;
     glob_glob := fun _ => [entry; foo; entry_b; clash];
     stat_mtime := fun p => if str_eqb p (lit "out/Shaders.h") then None else Some 10%float;
     platform_system := linux;
     subprocess_run := fun _ => Some (1%Z, Some (lit "error: syntax"));
     read_bytes := fun _ => Some [];
     open_write := fun _ => true;
     read_text := fun _ => Some foo_text;
     same_file := str_eqb |}.


(** One of the files that glob returns cannot be stat'ed (a dangling link). *)
Definition ghost : str := lit "shaders/ghost.hlsl".
Definition dangling : World :=
  {| argv := args3;
     os_path := Posix.path;
     glob_glob := fun _ => [foo; ghost];
     stat_mtime := fun p => if str_eqb p foo then Some 10%float else None;
     platform_system := linux;
     subprocess_run := fun _ => Some (0%Z, Some []);
     read_bytes := fun _ => Some [];
     open_write := fun _ => true;
     read_text := fun _ => Some foo_text;
     same_file := str_eqb |}.

(** The second of three files cannot be opened for reading. *)
Definition bar : str := lit "shaders/bar.hlsl".
Definition locked : World :=
  {| argv := args3;
     os_path := Posix.path;
     glob_glob := fun _ => [foo; ghost; bar];
     stat_mtime := fun p => if str_eqb p (lit "out/Shaders.h") then None else Some 10%float;
     platform_system := linux;
     subprocess_run := fun _ => Some (0%Z, Some []);
     read_bytes := fun _ => Some [];
     open_write := fun _ => true;
     read_text := fun p => if str_eqb p ghost then None else Some foo_text;
     same_file := str_eqb |}.

(** The output header cannot be opened for writing. *)
Definition read_only : World :=
  {| argv := args3;
     os_path := Posix.path;
     glob_glob := fun _ => [foo];
     stat_mtime := fun p => if str_eqb p foo then Some 10%float else None;
     platform_system := linux;
     subprocess_run := fun _ => Some (0%Z, Some []);
     read_bytes := fun _ => Some [];
     open_write := fun _ => false;
     read_text := fun _ => Some foo_text;
     same_file := str_eqb |}.

(** The compiler is given, finds the entry point and fails with status 1. *)
Definition failing_compiler : World :=
  {| argv := args4;
     os_path := Posix.path;
     glob_glob := fun _ => [foo; entry];
     stat_mtime := fun p => if str_eqb p (lit "out/Shaders.h") then None else Some 10%float;
     platform_system := linux;
     subprocess_run := fun _ => Some (1%Z, Some (lit "error: syntax"));
     read_bytes := fun _ => Some [];
     open_write := fun _ => true;
     read_text := fun _ => Some foo_text;
     same_file := str_eqb |}.

(** The compiler fails and what it wrote to stderr is not valid text. *)
Definition garbled_compiler : World :=
  {| argv := args4;
     os_path := Posix.path;
     glob_glob := fun _ => [foo; entry];
     stat_mtime := fun p => if str_eqb p (lit "out/Shaders.h") then None else Some 10%float;
     platform_system := linux;
     subprocess_run := fun _ => Some (1%Z, None);
     read_bytes := fun _ => Some [];
     open_write := fun _ => true;
     read_text := fun _ => Some foo_text;
     same_file := str_eqb |}.

(** Two files that give the same constant name. *)
Definition twin : str := lit "shaders/foo.slang".
Definition twins : World := world args3 [foo; twin] None linux [].

End Sample.

(** ** Functions used to state the properties *)

(** What the three escaping steps together make of one character. *)
Definition escape_char (c : char) : str :=
  if N.eqb c BS then [BS; BS]
  else if N.eqb c NL then [BS; LETTER_n]
  else if N.eqb c DQ then [BS; DQ]
  else [c].

(** Replacing one character by a string, everywhere. *)
Definition replace_char (a : char) (repl : str) (s : str) : str :=
  flat_map (fun c => if N.eqb c a then repl else [c]) s.

(** Whitespace collapsing as a scan: [in_run] tells whether the previous
    character belonged to a run that has already given its space. *)
Fixpoint squeeze (in_run : bool) (s : str) : str :=
  match s with
  | [] => []
  | c :: s' =>
      if hspace c then (if in_run then [] else [SP]) ++ squeeze true s'
      else c :: squeeze false s'
  end.

Definition count_newlines (s : str) : nat := count_occ N.eq_dec s NL.

Definition ends_with_newline (s : str) : bool :=
  match rev s with
  | c :: _ => N.eqb c NL
  | [] => false
  end.

(** Is there no unterminated last line? *)
Definition last_line_terminated (lines : list str) : bool :=
  ends_with_newline (last lines [NL]).

(** Is the input [hlslFile] strictly newer than the time [t]? *)
Definition newer_than (w : World) (t : float) (hlslFile : str) : bool :=
  match stat_mtime w hlslFile with
  | Some fileModTime => PrimFloat.ltb t fileModTime
  | None => false
  end.

Definition log_of {A} (r : Res A) : Log :=
  match r with
  | Ret _ l => l
  | Stop _ l => l
  end.

(** A run reaches the minifier with log [l] when it passes the freshness
    gate and the binary packer, if it is enabled, comes back. *)
Definition reaches_minifier (w : World) (a : Args) (files : list str) (l : Log) : Prop :=
  exists entryPointFile l0,
    freshness_gate w empty_log = Ret (a, files, entryPointFile) l0
    /\ (if packer_enabled (slangc a) entryPointFile
        then binary_packer w a entryPointFile
        else ret tt) l0 = Ret tt l.

(** Everything lines 169-208 write for one file. *)
Definition file_section (w : World) (hlslFile : str) : str :=
  match read_text w hlslFile with
  | Some text =>
      constant_head (os_path w) hlslFile ++ constant_body hlslFile (readlines text)
  | None => []
  end.

(** What the loop of line 145 prints, from file number [n] on. *)
Fixpoint file_messages (P : OsPath) (numFiles n : nat) (files : list str) : list str :=
  match files with
  | [] => []
  | hlslFile :: files' =>
      minifying_message n numFiles hlslFile
      :: (if str_eqb (stringName P hlslFile) directorySymbolName
          then [conflict_message P hlslFile] else [])
      ++ file_messages P numFiles (n + 1) files'
  end.

(** The entries of a directory table: a separator after each one but the
    last, the closing brace after the last. *)
Definition directory_entries (entry : str -> str) (files : list str) : str :=
  match files with
  | [] => []
  | _ :: _ =>
      concat (map (fun f => entry f ++ lit "," ++ [NL]) (removelast files))
      ++ entry (last files []) ++ [NL; TAB] ++ lit "};" ++ [NL]
  end.

(** A piece of the script that leaves the secondary header alone. *)
Definition keeps_packed {A} (m : Script A) : Prop :=
  forall l, packed (log_of (m l)) = packed l.

(** The bytes of word [i], low address last, with a default instead of an
    error. *)
Definition swapped_word (data : list byte) (i : nat) : list byte :=
  [nth (i * 4 + 3) data x00; nth (i * 4 + 2) data x00;
   nth (i * 4 + 1) data x00; nth (i * 4 + 0) data x00].

(** What the loop of line 145 appends to [directoryString], from file
    number [n] on. *)
Fixpoint directory_rows (P : OsPath) (numFiles n : nat) (files : list str) : str :=
  match files with
  | [] => []
  | hlslFile :: files' =>
      directory_entry P hlslFile
      ++ (if n + 1 =? numFiles then directory_close else directory_separator)
      ++ directory_rows P numFiles (n + 1) files'
  end.

(** A piece of the script that leaves the primary header alone. *)
Definition keeps_header {A} (m : Script A) : Prop :=
  forall l, header (log_of (m l)) = header l.

(** A piece of the script that never calls [sys.exit(0)]. *)
Definition never_exits_zero {A} (m : Script A) : Prop :=
  forall l s l', m l = Stop s l' -> s <> SysExit 0.

(** Can [s] stand between two double quotes of a C++ source: no bare quote,
    no line feed, and every backslash starts one of the three escapes. *)
Fixpoint well_escaped (s : str) : bool :=
  match s with
  | [] => true
  | c :: s' =>
      if N.eqb c BS then
        match s' with
        | d :: s'' =>
            (N.eqb d BS || N.eqb d LETTER_n || N.eqb d DQ) && well_escaped s''
        | [] => false
        end
      else negb (N.eqb c DQ) && negb (N.eqb c NL) && well_escaped s'
  end.

(** Is every whitespace character of [s] (line terminators apart) a space
    that follows no other such character?  [after_space] tells whether the
    previous character was one. *)
Fixpoint single_spaced (after_space : bool) (s : str) : bool :=
  match s with
  | [] => true
  | c :: s' =>
      if hspace c then negb after_space && N.eqb c SP && single_spaced true s'
      else single_spaced false s'
  end.

(** The value of a hexadecimal digit and of a string of them. *)
Definition hex_value (c : char) : N :=
  if (c <? 58)%N then (c - 48)%N else (c - 87)%N.

Definition hex_number (s : str) : N :=
  fold_left (fun acc c => (16 * acc + hex_value c)%N) s 0%N.

(** The number that four bytes hold, least significant byte first. *)
Definition little_endian (b0 b1 b2 b3 : byte) : N :=
  (Byte.to_N b0 + 256 * Byte.to_N b1 + 65536 * Byte.to_N b2
   + 16777216 * Byte.to_N b3)%N.

(** The text of a line as the string constant holds it, before escaping. *)
Definition stripped_line (ln : str) : str :=
  collapse_whitespace (strip_comment ln).

(** The progress lines of the loop of line 145, from file number [n] on. *)
Fixpoint progress_messages (numFiles n : nat) (files : list str) : list str :=
  match files with
  | [] => []
  | hlslFile :: files' =>
      minifying_message n numFiles hlslFile :: progress_messages numFiles (n + 1) files'
  end.

(** The text of a line before its first double slash. *)
Fixpoint before_comment (s : str) : str :=
  match s with
  | [] => []
  | c :: s' =>
      if startswith [SLASH; SLASH] (c :: s') then [] else c :: before_comment s'
  end.

(** Following the spec's words, the comment-stripped form of a line: the
    text from the first double slash to the end of the line is removed; the
    line keeps its terminator, if it has one. *)
Definition comment_stripped (ln : str) : str :=
  if ends_with_newline ln then before_comment (removelast ln) ++ [NL]
  else before_comment ln.

(** Following the spec's words, the whitespace-collapsed form of a text:
    every run of whitespace other than line terminators is a single space. *)
Definition whitespace_collapsed (s : str) : str := squeeze false s.

(** The escaped-newline tokens as the claim counts them: the places where a
    backslash is directly followed by the letter n. *)
Definition starts_with_n (s : str) : bool :=
  match s with
  | d :: _ => N.eqb d LETTER_n
  | [] => false
  end.

Fixpoint backslash_n_pairs (s : str) : nat :=
  match s with
  | [] => 0
  | c :: s' =>
      (if N.eqb c BS && starts_with_n s' then 1 else 0) + backslash_n_pairs s'
  end.


(** * Properties *)

(** ** Strings *)

Lemma str_eqb_eq (a b : str) : str_eqb a b = true <-> a = b.
Proof.
  unfold str_eqb. destruct (list_eq_dec N.eq_dec a b); split; congruence.
Qed.

Lemma str_eqb_refl (a : str) : str_eqb a a = true.
Proof. now apply str_eqb_eq. Qed.

Lemma str_eqb_neq (a b : str) : str_eqb a b = false <-> a <> b.
Proof.
  unfold str_eqb. destruct (list_eq_dec N.eq_dec a b); split; congruence.
Qed.

Lemma startswith_spec (needle hay : str) :
  startswith needle hay = true <-> exists rest, hay = needle ++ rest.
Proof.
  revert hay. induction needle as [|a needle IH]; intros hay; simpl.
  - split; [intros _; now exists hay | reflexivity].
  - destruct hay as [|b hay].
    + split; [discriminate | intros [rest H]; discriminate].
    + rewrite andb_true_iff, N.eqb_eq, IH. split.
      * intros [-> [rest ->]]. now exists rest.
      * intros [rest H]. injection H as -> ->. split; [reflexivity | now exists rest].
Qed.

(** [needle in hay] holds exactly when [needle] is a substring of [hay]. *)
Lemma str_in_spec (needle hay : str) :
  str_in needle hay = true <-> exists before after, hay = before ++ needle ++ after.
Proof.
  induction hay as [|b hay IH].
  - simpl. rewrite orb_false_r, startswith_spec. split.
    + intros [rest H]. now exists [], rest.
    + intros [before [after H]]. destruct before; [now exists after | discriminate].
  - change (str_in needle (b :: hay))
      with (startswith needle (b :: hay) || str_in needle hay).
    rewrite orb_true_iff, startswith_spec, IH. split.
    + intros [[rest H] | [before [after H]]].
      * now exists [], rest.
      * exists (b :: before), after. now rewrite H.
    + intros [before [after H]]. destruct before as [|x before].
      * left. now exists after.
      * right. injection H as _ H. now exists before, after.
Qed.

(** ** [re.sub] on the script's patterns *)

Lemma re_sub_char (a : char) (repl s : str) :
  re_sub (match_char a) repl s = replace_char a repl s.
Proof.
  unfold re_sub, replace_char.
  induction s as [|c s IH]; simpl; [reflexivity|].
  destruct (N.eqb c a); simpl; now rewrite IH.
Qed.

Lemma match_hspace_cons (c : char) (s : str) :
  match_hspace (c :: s)
  = if hspace c then Some (S (span_len hspace s)) else None.
Proof. unfold match_hspace. simpl. now destruct (hspace c). Qed.

Lemma sub_go_hspace (s : str) :
  sub_go match_hspace [SP] 0 s = squeeze false s
  /\ sub_go match_hspace [SP] (span_len hspace s) s = squeeze true s.
Proof.
  induction s as [|c s [IH0 IH1]]; [split; reflexivity|].
  cbn [sub_go squeeze]. rewrite match_hspace_cons. cbn [span_len].
  destruct (hspace c); cbv beta iota.
  - rewrite IH1. split; reflexivity.
  - rewrite IH0. split; reflexivity.
Qed.

Lemma collapse_whitespace_squeeze (s : str) :
  collapse_whitespace s = squeeze false s.
Proof. exact (proj1 (sub_go_hspace s)). Qed.

Section SqueezeCommutes.

(** A character-wise rewriting that leaves whitespace alone and never
    produces any. *)
Variable h : char -> str.
Hypothesis h_space : forall c, hspace c = true -> h c = [c].
Hypothesis h_other : forall c, hspace c = false ->
  h c <> [] /\ forallb (fun d => negb (hspace d)) (h c) = true.

Lemma squeeze_app_other (b : bool) (u rest : str) :
  u <> [] -> forallb (fun d => negb (hspace d)) u = true ->
  squeeze b (u ++ rest) = u ++ squeeze false rest.
Proof.
  revert b. induction u as [|d u IH]; intros b Hne Hall; [congruence|].
  simpl in Hall. apply andb_true_iff in Hall as [Hd Hu].
  apply negb_true_iff in Hd. simpl. rewrite Hd. f_equal.
  destruct u as [|e u]; [reflexivity|].
  apply IH; [discriminate | exact Hu].
Qed.

Lemma squeeze_flat_map (b : bool) (s : str) :
  squeeze b (flat_map h s) = flat_map h (squeeze b s).
Proof.
  revert b. induction s as [|c s IH]; intros b; [reflexivity|].
  cbn [flat_map squeeze]. destruct (hspace c) eqn:Hc.
  - rewrite (h_space c Hc). cbn [app squeeze]. rewrite Hc, IH.
    destruct b; cbn [app flat_map]; [reflexivity|].
    now rewrite (h_space SP eq_refl).
  - destruct (h_other c Hc) as [Hne Hall].
    rewrite squeeze_app_other by assumption.
    cbn [flat_map]. now rewrite IH.
Qed.

End SqueezeCommutes.

Lemma squeeze_replace_char (a : char) (repl : str) (b : bool) (s : str) :
  hspace a = false -> repl <> [] ->
  forallb (fun d => negb (hspace d)) repl = true ->
  squeeze b (replace_char a repl s) = replace_char a repl (squeeze b s).
Proof.
  intros Ha Hne Hall. unfold replace_char. apply squeeze_flat_map.
  - intros c Hc. destruct (N.eqb_spec c a); [congruence | reflexivity].
  - intros c Hc. destruct (N.eqb_spec c a); [now split|].
    split; [discriminate|]. simpl. now rewrite Hc.
Qed.

Lemma replace_char_app (a : char) (repl s t : str) :
  replace_char a repl (s ++ t) = replace_char a repl s ++ replace_char a repl t.
Proof. unfold replace_char. apply flat_map_app. Qed.

Lemma escape_steps (u : str) :
  replace_char DQ [BS; DQ]
    (replace_char NL [BS; LETTER_n] (replace_char BS [BS; BS] u))
  = flat_map escape_char u.
Proof.
  induction u as [|c u IH]; [reflexivity|].
  change (replace_char BS [BS; BS] (c :: u))
    with ((if N.eqb c BS then [BS; BS] else [c]) ++ replace_char BS [BS; BS] u).
  rewrite !replace_char_app, IH. cbn [flat_map]. f_equal.
  unfold escape_char.
  destruct (N.eqb_spec c BS) as [->|H1]; [reflexivity|].
  destruct (N.eqb_spec c NL) as [->|H2]; [reflexivity|].
  destruct (N.eqb_spec c DQ) as [->|H3]; [reflexivity|].
  unfold replace_char. cbn [flat_map app].
  apply N.eqb_neq in H2, H3. rewrite H2. cbn [flat_map app]. now rewrite H3.
Qed.

(** The transform of a line is the character-wise escaping of its
    comment-stripped, whitespace-collapsed form. *)
Lemma minify_line_escape (ln : str) :
  minify_line ln = flat_map escape_char (collapse_whitespace (strip_comment ln)).
Proof.
  unfold minify_line, double_backslash, escape_newline, escape_quote.
  rewrite collapse_whitespace_squeeze, !re_sub_char.
  rewrite !squeeze_replace_char by (reflexivity || discriminate).
  rewrite escape_steps. now rewrite collapse_whitespace_squeeze.
Qed.

Lemma unescape_escape (u : str) : unescape (flat_map escape_char u) = u.
Proof.
  induction u as [|c u IH]; [reflexivity|].
  cbn [flat_map]. unfold escape_char at 1.
  destruct (N.eqb_spec c BS) as [->|H1]; [simpl; now rewrite IH|].
  destruct (N.eqb_spec c NL) as [->|H2]; [simpl; now rewrite IH|].
  destruct (N.eqb_spec c DQ) as [->|H3]; [simpl; now rewrite IH|].
  cbn [app unescape]. apply N.eqb_neq in H1. now rewrite H1, IH.
Qed.

(** Reading the three escapes of a transformed line back undoes the three
    escaping steps: what is left is the outcome of the first and the fourth
    substitution. *)
Lemma unescape_minify_line (ln : str) :
  unescape (minify_line ln) = collapse_whitespace (strip_comment ln).
Proof. rewrite minify_line_escape. apply unescape_escape. Qed.

(** ** Comment stripping *)

Lemma dot_star_nl_none (s : str) : ~ In NL s -> dot_star_nl s = None.
Proof.
  induction s as [|c s IH]; intros H; [reflexivity|].
  simpl. destruct (N.eqb_spec c NL) as [->|_].
  - exfalso. apply H. now left.
  - rewrite IH; [reflexivity | intros H'; apply H; now right].
Qed.

Lemma match_comment_none (s : str) : ~ In NL s -> match_comment s = None.
Proof.
  intros H. destruct s as [|a [|b s]]; try reflexivity.
  simpl. destruct (N.eqb a SLASH && N.eqb b SLASH); [|reflexivity].
  rewrite dot_star_nl_none; [reflexivity|].
  intros H'. apply H. now right; right.
Qed.

Lemma dot_star_nl_found (body rest : str) :
  ~ In NL body -> dot_star_nl (body ++ NL :: rest) = Some (S (length body)).
Proof.
  induction body as [|c body IH]; intros H; [reflexivity|].
  simpl. destruct (N.eqb_spec c NL) as [->|_].
  - exfalso. apply H. now left.
  - rewrite IH; [reflexivity | intros H'; apply H; now right].
Qed.

Lemma sub_go_skip (m : matcher) (repl u rest : str) :
  sub_go m repl (length u) (u ++ rest) = sub_go m repl 0 rest.
Proof. induction u as [|c u IH]; [reflexivity | exact IH]. Qed.

(** C4. A line that has no terminator (the last line of a file that does
    not end in a newline) keeps its comment: the pattern asks for the line
    feed, so nothing is removed. *)
Theorem strip_comment_unterminated (ln : str) :
  ~ In NL ln -> strip_comment ln = ln.
Proof.
  unfold strip_comment, re_sub.
  induction ln as [|c ln IH]; intros H; [reflexivity|].
  cbn [sub_go]. rewrite match_comment_none by exact H.
  rewrite IH; [reflexivity | intros H'; apply H; now right].
Qed.

Lemma strip_comment_unterminated_witness :
  ~ In NL (lit "float x; // c")
  /\ strip_comment (lit "float x; // c") = lit "float x; // c".
Proof.
  assert (H : ~ In NL (lit "float x; // c")).
  { intros H. vm_compute in H. repeat (destruct H as [H|H]; [discriminate H|]). exact H. }
  split; [exact H | exact (strip_comment_unterminated (lit "float x; // c") H)].
Defined.

Lemma sub_comment_terminated (pre body : str) :
  str_in [SLASH; SLASH] (pre ++ [SLASH]) = false ->
  ~ In NL pre -> ~ In NL body ->
  re_sub match_comment [NL] (pre ++ [SLASH; SLASH] ++ body ++ [NL]) = pre ++ [NL].
Proof.
  unfold re_sub. intros Hpre Hnl Hbody.
  induction pre as [|c pre IH].
  - cbn [app sub_go match_comment]. rewrite N.eqb_refl. cbn [andb].
    rewrite dot_star_nl_found by exact Hbody. cbn [option_map Nat.add].
    pose proof (sub_go_skip match_comment [NL] (body ++ [NL]) []) as K.
    rewrite app_nil_r, length_app in K.
    cbn [length] in K. rewrite Nat.add_1_r in K.
    rewrite K. reflexivity.
  - change ((c :: pre) ++ [SLASH]) with (c :: (pre ++ [SLASH])) in Hpre.
    change (str_in [SLASH; SLASH] (c :: (pre ++ [SLASH])))
      with (startswith [SLASH; SLASH] (c :: (pre ++ [SLASH]))
            || str_in [SLASH; SLASH] (pre ++ [SLASH])) in Hpre.
    apply orb_false_iff in Hpre as [Hstart Hrest].
    assert (Hm : match_comment ((c :: pre) ++ [SLASH; SLASH] ++ body ++ [NL]) = None).
    { destruct pre as [|d pre]; cbn [app match_comment].
      - cbn [app startswith] in Hstart. rewrite andb_true_r in Hstart.
        rewrite (N.eqb_sym c SLASH), Hstart. reflexivity.
      - cbn [app startswith] in Hstart. rewrite andb_true_r in Hstart.
        rewrite (N.eqb_sym c SLASH), (N.eqb_sym d SLASH), Hstart. reflexivity. }
    change ((c :: pre) ++ [SLASH; SLASH] ++ body ++ [NL])
      with (c :: (pre ++ [SLASH; SLASH] ++ body ++ [NL])) in *.
    cbn [sub_go]. rewrite Hm. cbn [app]. f_equal.
    apply IH; [exact Hrest | intros H'; apply Hnl; now right].
Qed.

(** A terminated line loses everything from its first double slash to the
    end and keeps its terminator. *)
Lemma strip_comment_terminated (pre body : str) :
  str_in [SLASH; SLASH] (pre ++ [SLASH]) = false ->
  ~ In NL pre -> ~ In NL body ->
  strip_comment (pre ++ [SLASH; SLASH] ++ body ++ [NL]) = pre ++ [NL].
Proof. exact (sub_comment_terminated pre body). Qed.

Lemma minify_comment_only (body : str) :
  ~ In NL body -> minify_line ([SLASH; SLASH] ++ body ++ [NL]) = [BS; LETTER_n].
Proof.
  intros H. rewrite minify_line_escape. unfold strip_comment.
  pose proof (sub_comment_terminated [] body eq_refl (fun F => F) H) as E.
  cbn [app] in E |- *. rewrite E. reflexivity.
Qed.

(** A fully commented line collapses to an empty line. *)
Lemma minify_commented_line (body : str) :
  ~ In NL body -> minify_line ([SLASH; SLASH] ++ body ++ [NL]) = [BS; LETTER_n].
Proof. exact (minify_comment_only body). Qed.

(** ** Counting lines *)

Lemma count_newlines_app (s t : str) :
  count_newlines (s ++ t) = count_newlines s + count_newlines t.
Proof. apply count_occ_app. Qed.

Lemma count_newlines_cons (c : char) (s : str) :
  count_newlines (c :: s) = (if N.eqb c NL then 1 else 0) + count_newlines s.
Proof.
  unfold count_newlines. simpl.
  destruct (N.eq_dec c NL) as [->|H]; [reflexivity|].
  apply N.eqb_neq in H. now rewrite H.
Qed.

Lemma count_newlines_zero (s : str) : count_newlines s = 0 <-> ~ In NL s.
Proof. unfold count_newlines. symmetry. apply count_occ_not_In. Qed.

Lemma dot_star_nl_count (s : str) (n : nat) :
  dot_star_nl s = Some n -> count_newlines s = S (count_newlines (skipn n s)).
Proof.
  revert n. induction s as [|c s IH]; intros n H; [discriminate|].
  simpl in H. rewrite count_newlines_cons.
  destruct (N.eqb c NL).
  - injection H as <-. reflexivity.
  - destruct (dot_star_nl s) as [k|]; [|discriminate].
    injection H as <-. simpl. now apply IH.
Qed.

Lemma match_comment_count (s : str) (k : nat) :
  match_comment s = Some (S k) ->
  count_newlines s = S (count_newlines (skipn k (tl s))).
Proof.
  destruct s as [|a [|b s]]; try discriminate. cbn [match_comment tl].
  destruct (N.eqb_spec a SLASH) as [->|_]; [|discriminate].
  destruct (N.eqb_spec b SLASH) as [->|_]; [|discriminate].
  cbn [andb]. destruct (dot_star_nl s) as [n|] eqn:E; [|discriminate].
  intros H. injection H as <-.
  rewrite !count_newlines_cons. cbn [skipn].
  rewrite (dot_star_nl_count s n E). reflexivity.
Qed.

Lemma count_sub_go_comment (s : str) (k : nat) :
  count_newlines (sub_go match_comment [NL] k s) = count_newlines (skipn k s).
Proof.
  revert k. induction s as [|c s IH]; intros k.
  - now rewrite skipn_nil.
  - destruct k as [|k]; cbn [sub_go skipn]; [|apply IH].
    destruct (match_comment (c :: s)) as [[|k]|] eqn:E.
    + rewrite !count_newlines_cons, IH. reflexivity.
    + rewrite (match_comment_count (c :: s) k E). cbn [tl app].
      rewrite count_newlines_cons, IH. reflexivity.
    + rewrite !count_newlines_cons, IH. reflexivity.
Qed.

(** Comment stripping keeps the number of line feeds. *)
Lemma count_strip_comment (s : str) :
  count_newlines (strip_comment s) = count_newlines s.
Proof. exact (count_sub_go_comment s 0). Qed.

Lemma hspace_not_newline (c : char) : hspace c = true -> N.eqb c NL = false.
Proof.
  unfold hspace. intros H. apply andb_true_iff in H as [_ H].
  now apply negb_true_iff in H.
Qed.

Lemma count_squeeze (b : bool) (s : str) :
  count_newlines (squeeze b s) = count_newlines s.
Proof.
  revert b. induction s as [|c s IH]; intros b; [reflexivity|].
  cbn [squeeze]. rewrite count_newlines_cons. destruct (hspace c) eqn:Hc.
  - rewrite (hspace_not_newline c Hc), count_newlines_app, IH.
    now destruct b.
  - now rewrite count_newlines_cons, IH.
Qed.

Lemma count_replace_slash (s : str) :
  count_newlines (replace_char BS [SLASH] s) = count_newlines s.
Proof.
  induction s as [|c s IH]; [reflexivity|].
  change (replace_char BS [SLASH] (c :: s))
    with ((if N.eqb c BS then [SLASH] else [c]) ++ replace_char BS [SLASH] s).
  rewrite count_newlines_app, count_newlines_cons, IH.
  destruct (N.eqb_spec c BS) as [->|_]; [reflexivity|].
  rewrite count_newlines_cons. cbn [count_newlines count_occ]. lia.
Qed.

Lemma newline_tokens_escape (u rest : str) :
  newline_tokens (flat_map escape_char u ++ rest)
  = count_newlines u + newline_tokens rest.
Proof.
  induction u as [|c u IH]; [reflexivity|].
  cbn [flat_map]. rewrite <- app_assoc, count_newlines_cons.
  unfold escape_char at 1.
  destruct (N.eqb_spec c BS) as [->|H1]; [simpl; now rewrite IH|].
  destruct (N.eqb_spec c NL) as [->|H2]; [simpl; now rewrite IH|].
  destruct (N.eqb_spec c DQ) as [->|H3]; [simpl; now rewrite IH|].
  cbn [app newline_tokens]. apply N.eqb_neq in H1. now rewrite H1, IH.
Qed.

Lemma concat_minify_lines (lines : list str) :
  concat (map minify_line lines)
  = flat_map escape_char
      (concat (map (fun ln => collapse_whitespace (strip_comment ln)) lines)).
Proof.
  induction lines as [|ln lines IH]; [reflexivity|].
  cbn [map concat]. now rewrite flat_map_app, IH, minify_line_escape.
Qed.

Lemma count_collapsed_lines (lines : list str) :
  count_newlines
    (concat (map (fun ln => collapse_whitespace (strip_comment ln)) lines))
  = count_newlines (concat lines).
Proof.
  induction lines as [|ln lines IH]; [reflexivity|].
  cbn [map concat]. rewrite !count_newlines_app, IH.
  rewrite collapse_whitespace_squeeze, count_squeeze.
  unfold strip_comment, re_sub. now rewrite count_sub_go_comment.
Qed.

(** ** The loop over the lines *)

(** The segments, put end to end, are the transformed lines in order and
    one more escaped newline after the last of them. *)
Lemma line_loop_concat (numLines : nat) (lines : list str) (lineNo : nat) (curr : str) :
  lineNo + length lines = numLines ->
  concat (fst (line_loop numLines lines lineNo curr))
  ++ snd (line_loop numLines lines lineNo curr)
  = curr ++ concat (map minify_line lines)
    ++ match lines with [] => [] | _ => [BS; LETTER_n] end.
Proof.
  revert lineNo curr.
  induction lines as [|ln lines IH]; intros lineNo curr Hn.
  - simpl. now rewrite app_nil_r.
  - cbn [line_loop map concat]. cbn [length] in Hn.
    assert (Hlast : (lineNo + 1 =? numLines) = match lines with [] => true | _ => false end).
    { destruct lines; cbn [length] in Hn; [apply Nat.eqb_eq | apply Nat.eqb_neq]; lia. }
    rewrite Hlast.
    assert (Hrest : lineNo + 1 + length lines = numLines) by lia.
    destruct (100 <? length _).
    + specialize (IH (lineNo + 1) [] Hrest).
      destruct (line_loop numLines lines (lineNo + 1) []) as [flushed last].
      cbn [fst snd concat] in IH |- *. rewrite <- app_assoc, IH.
      destruct lines; cbn [app map concat]; rewrite <- ?app_assoc; reflexivity.
    + rewrite (IH (lineNo + 1) _ Hrest).
      destruct lines; cbn [app map concat]; rewrite <- ?app_assoc; reflexivity.
Qed.

Lemma string_constant_concat (hlslFile : str) (lines : list str) :
  string_constant hlslFile lines
  = concat (map minify_line (line_directive hlslFile :: lines)) ++ [BS; LETTER_n].
Proof.
  unfold string_constant, file_segments.
  pose proof (line_loop_concat _ (line_directive hlslFile :: lines)
                0 [] eq_refl) as H.
  destruct (line_loop _ _ 0 []) as [flushed last]. exact H.
Qed.

Lemma count_line_directive (hlslFile : str) :
  count_newlines (line_directive hlslFile) = S (count_newlines hlslFile).
Proof.
  unfold line_directive.
  rewrite re_sub_char, !count_newlines_app, count_replace_slash.
  cbn. lia.
Qed.

(** The tokens of a string constant, whatever the lines are. *)
Lemma newline_tokens_constant (hlslFile : str) (lines : list str) :
  newline_tokens (string_constant hlslFile lines)
  = count_newlines hlslFile + count_newlines (concat lines) + 2.
Proof.
  rewrite string_constant_concat, concat_minify_lines, newline_tokens_escape.
  rewrite count_collapsed_lines. cbn [concat].
  rewrite count_newlines_app, count_line_directive. cbn. lia.
Qed.

(** ** [readlines] *)

Lemma splitlines_concat (cur s : str) :
  concat (splitlines_keepends cur s) = cur ++ s.
Proof.
  revert cur. induction s as [|c s IH]; intros cur.
  - simpl. destruct cur; simpl; now rewrite ?app_nil_r.
  - simpl. destruct (N.eqb c NL).
    + cbn [concat]. rewrite IH, <- app_assoc. reflexivity.
    + rewrite IH, <- app_assoc. reflexivity.
Qed.

Lemma ends_with_newline_snoc (s : str) (c : char) :
  ends_with_newline (s ++ [c]) = N.eqb c NL.
Proof. unfold ends_with_newline. now rewrite rev_unit. Qed.

Lemma ends_with_newline_count (s : str) :
  count_newlines s = 0 -> ends_with_newline s = false.
Proof.
  destruct s as [|c s] using rev_ind; [reflexivity|].
  rewrite ends_with_newline_snoc, count_newlines_app, count_newlines_cons.
  destruct (N.eqb c NL); [lia | reflexivity].
Qed.

Lemma last_line_terminated_cons (ln : str) (lines : list str) :
  last_line_terminated (ln :: lines)
  = match lines with [] => ends_with_newline ln | _ => last_line_terminated lines end.
Proof. unfold last_line_terminated. now destruct lines. Qed.

(** The lines of a text are one per line feed, and one more for an
    unterminated rest. *)
Lemma splitlines_length (cur s : str) :
  count_newlines cur = 0 ->
  length (splitlines_keepends cur s)
  + (if last_line_terminated (splitlines_keepends cur s) then 1 else 0)
  = count_newlines s + 1
  /\ (splitlines_keepends cur s = [] -> cur = [] /\ s = []).
Proof.
  revert cur. induction s as [|c s IH]; intros cur Hcur.
  - simpl. destruct cur as [|x cur].
    + split; [reflexivity | now split].
    + split; [|discriminate].
      cbn [length]. unfold last_line_terminated. cbn [last].
      rewrite (ends_with_newline_count (x :: cur) Hcur). reflexivity.
  - cbn [splitlines_keepends]. rewrite count_newlines_cons.
    destruct (N.eqb_spec c NL) as [->|Hc].
    + split; [|discriminate].
      destruct (IH [] eq_refl) as [IH1 IH2].
      rewrite last_line_terminated_cons. cbn [length].
      destruct (splitlines_keepends [] s) as [|l ls] eqn:E.
      * destruct (IH2 eq_refl) as [_ ->].
        rewrite ends_with_newline_snoc. reflexivity.
      * cbn [length] in IH1 |- *. lia.
    + assert (Hcur' : count_newlines (cur ++ [c]) = 0).
      { rewrite count_newlines_app, count_newlines_cons, Hcur.
        apply N.eqb_neq in Hc. now rewrite Hc. }
      destruct (IH (cur ++ [c]) Hcur') as [IH1 IH2]. split.
      * rewrite IH1. reflexivity.
      * intros E. destruct (IH2 E) as [F _]. now destruct cur.
Qed.

(** For a path without line feed, the escaped newlines that a reader of
    the literal finds (an escaped backslash followed by n is not one) are as
    many as the lines of the file plus two, or plus one when the last line
    has no terminator. *)
Lemma newline_tokens_readlines (hlslFile text : str) :
  count_newlines hlslFile = 0 ->
  newline_tokens (string_constant hlslFile (readlines text))
  = length (readlines text)
    + (if last_line_terminated (readlines text) then 2 else 1).
Proof.
  intros Hpath. rewrite newline_tokens_constant, Hpath.
  unfold readlines. rewrite splitlines_concat. cbn [app].
  destruct (splitlines_length [] (universal_newlines text) eq_refl) as [H _].
  destruct (last_line_terminated _); lia.
Qed.

(** ** The freshness gate *)

Lemma last_cons_default {A} (x d : A) (l : list A) : last (x :: l) d = last l x.
Proof.
  revert x d. induction l as [|y l IH]; intros x d; [reflexivity|].
  change (last (x :: y :: l) d) with (last (y :: l) d).
  now rewrite !(IH y).
Qed.

(** The loop of lines 52-57 in closed form: it fails only when a file
    cannot be stat'ed; otherwise the rebuild flag is raised by any strictly
    newer file, and the entry point is the last file that contains the
    name. *)
Lemma scan_files_closed (w : World) (name : str) (t : float) (files : list str)
    (rebuildNeeded : bool) (entryPointFile : str) :
  Forall (fun f => stat_mtime w f <> None) files ->
  scan_files w name t files rebuildNeeded entryPointFile
  = Some (rebuildNeeded || existsb (newer_than w t) files,
          last (filter (str_in name) files) entryPointFile).
Proof.
  intros Hstat. revert rebuildNeeded entryPointFile.
  induction Hstat as [|f files Hf _ IH]; intros r e.
  - simpl. now rewrite orb_false_r.
  - cbn [scan_files existsb filter]. unfold newer_than at 1.
    destruct (stat_mtime w f) as [m|]; [|congruence].
    rewrite IH. f_equal. f_equal.
    + now destruct (PrimFloat.ltb t m), r.
    + destruct (str_in name f); [now rewrite last_cons_default | reflexivity].
Qed.

Lemma scan_files_failure (w : World) (name : str) (t : float) (files : list str)
    (rebuildNeeded : bool) (entryPointFile : str) :
  Exists (fun f => stat_mtime w f = None) files ->
  scan_files w name t files rebuildNeeded entryPointFile = None.
Proof.
  intros H. revert rebuildNeeded entryPointFile.
  induction H as [f files Hf | f files _ IH]; intros r e; cbn [scan_files].
  - now rewrite Hf.
  - destruct (stat_mtime w f); [apply IH | reflexivity].
Qed.

Lemma argc_in_range (n : nat) :
  3 <= n <= 6 -> (n <? 3) || (6 <? n) = false.
Proof.
  intros H. apply orb_false_iff. split; apply Nat.ltb_ge; lia.
Qed.

(** What the gate does once the command line is accepted and every input
    can be stat'ed. *)
Lemma freshness_gate_closed (w : World) (l : Log) :
  3 <= length (argv w) <= 6 ->
  let a := parse_args (os_path w) (argv w) in
  let files := glob_glob w (glob_pattern (hlslFolder a)) in
  Forall (fun f => stat_mtime w f <> None) files ->
  freshness_gate w l
  = if existsb (newer_than w (output_mod_time w (outputFile a))) files
    then Ret (a, files, last (filter (str_in (mainEntryPoint a)) files) []) l
    else Stop (SysExit 0)
           {| printed := printed l ++ [up_to_date_message (outputFile a)];
              packed := packed l; header := header l |}.
Proof.
  intros Hargc a files Hstat. unfold freshness_gate.
  rewrite (argc_in_range _ Hargc). fold a. fold files.
  rewrite (scan_files_closed w (mainEntryPoint a) _ files false [] Hstat).
  cbn [orb]. destruct (existsb _ files); reflexivity.
Qed.

Lemma existsb_newer (w : World) (t : float) (files : list str) :
  existsb (newer_than w t) files = true
  <-> exists f m, In f files /\ stat_mtime w f = Some m /\ PrimFloat.ltb t m = true.
Proof.
  rewrite existsb_exists. unfold newer_than. split.
  - intros [f [Hin H]]. destruct (stat_mtime w f) as [m|] eqn:E; [|discriminate].
    now exists f, m.
  - intros [f [m [Hin [E H]]]]. exists f. now rewrite E.
Qed.

(** C1. In every run whose command line is accepted and whose input files
    can all be stat'ed, the run goes on to regenerate exactly when some
    input file's mtime is strictly greater than the output's mtime, where
    the mtime of a missing output is 0; otherwise it prints the up-to-date
    message and exits with status 0, writing nothing. *)
Theorem freshness_gate_decides (w : World) :
  3 <= length (argv w) <= 6 ->
  let a := parse_args (os_path w) (argv w) in
  let files := glob_glob w (glob_pattern (hlslFolder a)) in
  let outputModTime :=
    match stat_mtime w (outputFile a) with Some t => t | None => 0%float end in
  let some_newer :=
    exists f m, In f files /\ stat_mtime w f = Some m
                /\ PrimFloat.ltb outputModTime m = true in
  Forall (fun f => stat_mtime w f <> None) files ->
  ((exists r l, freshness_gate w empty_log = Ret r l) <-> some_newer)
  /\ (~ some_newer ->
      run w = (SysExit 0,
               {| printed := [up_to_date_message (outputFile a)];
                  packed := None; header := None |})).
Proof.
  intros Hargc a files outputModTime some_newer Hstat.
  pose proof (freshness_gate_closed w empty_log Hargc Hstat) as G.
  fold a in G. fold files in G.
  change (output_mod_time w (outputFile a)) with outputModTime in G.
  pose proof (existsb_newer w outputModTime files) as E.
  fold some_newer in E.
  destruct (existsb (newer_than w outputModTime) files).
  - split.
    + split; [intros _; now apply E | intros _; eauto].
    + intros N. exfalso. apply N. now apply E.
  - split.
    + split.
      * intros [r [l H]]. rewrite G in H. discriminate.
      * intros H. apply E in H. discriminate.
    + intros _. unfold run, main, bind. rewrite G. reflexivity.
Qed.

Lemma freshness_gate_decides_witness :
  3 <= length (argv Sample.stale) <= 6
  /\ exists r l, freshness_gate Sample.stale empty_log = Ret r l.
Proof.
  assert (Hargc : 3 <= length (argv Sample.stale) <= 6) by (vm_compute; lia).
  split; [exact Hargc|].
  destruct (freshness_gate_decides Sample.stale Hargc) as [[_ H] _].
  - vm_compute. repeat constructor; discriminate.
  - apply H. exists Sample.foo, 10%float.
    split; [now left|]. split; vm_compute; reflexivity.
Defined.

(** The output header is missing, the folder holds no shader: the run
    reports that the header is up to date and regenerates nothing. *)
Lemma missing_output_not_rebuilt :
  stat_mtime Sample.empty_folder
    (outputFile (parse_args (os_path Sample.empty_folder) (argv Sample.empty_folder)))
  = None
  /\ run Sample.empty_folder
     = (SysExit 0,
        {| printed := [up_to_date_message (lit "out/Shaders.h")];
           packed := None; header := None |}).
Proof. split; vm_compute; reflexivity. Qed.

(** A second run on unchanged inputs finds the header up to date. *)
Example run_fresh :
  run Sample.fresh
  = (SysExit 0,
     {| printed := [up_to_date_message (lit "out/Shaders.h")];
        packed := None; header := None |}).
Proof. vm_compute. reflexivity. Qed.

(** ** The entry point *)

Lemma compile_job_entry (P : OsPath) (a : Args) (entryPointFile target : str) :
  nth_error (cmd (compile_job P a entryPointFile target)) 1 = Some entryPointFile.
Proof.
  unfold compile_job.
  destruct (str_eqb target (lit "metal")); [reflexivity|].
  destruct (str_eqb target (lit "dxil")); reflexivity.
Qed.

(** ** The word array *)

Lemma word_loop_index_error (data : list byte) (numWords : nat)
    (range : list nat) (headerStr : str) :
  Exists (fun i => word_bytes data i = None) range ->
  word_loop data numWords range headerStr = None.
Proof.
  intros H. revert headerStr.
  induction H as [i range Hi | i range _ IH]; intros headerStr; cbn [word_loop].
  - now rewrite Hi.
  - destruct (word_bytes data i); [apply IH | reflexivity].
Qed.

Lemma word_bytes_out_of_range (data : list byte) (i : nat) :
  length data <= i * 4 + 3 -> word_bytes data i = None.
Proof.
  intros H. unfold word_bytes.
  now rewrite (proj2 (nth_error_None data (i * 4 + 3)) H).
Qed.

Lemma word_bytes_in_range (data : list byte) (i : nat) :
  i * 4 + 3 < length data -> word_bytes data i = Some (swapped_word data i).
Proof.
  intros H. unfold word_bytes, swapped_word.
  rewrite !(nth_error_nth' data x00) by lia. reflexivity.
Qed.

Lemma ceil_div4_unaligned (n : nat) :
  n mod 4 <> 0 -> ceil_div4 n = S (n / 4).
Proof.
  intros H. unfold ceil_div4.
  pose proof (Nat.div_mod_eq n 4) as E.
  pose proof (Nat.mod_upper_bound n 4 ltac:(discriminate)) as B.
  symmetry. apply (Nat.div_unique (n + 3) 4 (S (n / 4)) (n mod 4 - 1)); lia.
Qed.

Lemma ceil_div4_aligned (k : nat) : ceil_div4 (4 * k) = k.
Proof.
  unfold ceil_div4. symmetry.
  apply (Nat.div_unique (4 * k + 3) 4 k 3); lia.
Qed.

(** C5. A compiled binary whose length is not a multiple of 4 has no word
    array: reading the last, partial word raises IndexError and nothing is
    emitted. *)
Theorem pack_words_unaligned (variableName : str) (data : list byte) :
  length data mod 4 <> 0 -> pack_words variableName data = None.
Proof.
  intros H. unfold pack_words.
  rewrite word_loop_index_error; [reflexivity|].
  apply Exists_exists. exists (length data / 4). split.
  - apply in_seq. rewrite (ceil_div4_unaligned _ H). lia.
  - apply word_bytes_out_of_range.
    pose proof (Nat.div_mod_eq (length data) 4) as E.
    pose proof (Nat.mod_upper_bound (length data) 4 ltac:(discriminate)) as B.
    lia.
Qed.

Lemma pack_words_unaligned_witness :
  length [x01; x02; x03; x04; x05] mod 4 <> 0
  /\ pack_words (lit "g_sMainEntryPointsmetal") [x01; x02; x03; x04; x05] = None.
Proof.
  assert (H : length [x01; x02; x03; x04; x05] mod 4 <> 0) by (vm_compute; discriminate).
  split; [exact H | exact (pack_words_unaligned _ _ H)].
Defined.

(** The run on a five-byte compiler output ends in the uncaught error
    before any header is written. *)
Example run_unaligned_binary :
  run (Sample.with_compiler Sample.args4 Sample.darwin [x01; x02; x03; x04; x05])
  = (Uncaught IndexError,
     {| printed :=
          [announce Sample.entry (lit "slangc") (lit "MSL") (lit "out/MainEntryPoints.h")];
        packed := None; header := None |}).
Proof. vm_compute. reflexivity. Qed.

Lemma word_loop_in_range (data : list byte) (numWords : nat)
    (range : list nat) (headerStr : str) :
  Forall (fun i => i * 4 + 3 < length data) range ->
  word_loop data numWords range headerStr
  = Some (headerStr
          ++ concat (map (fun i => word_token numWords i (swapped_word data i)) range)).
Proof.
  intros H. revert headerStr.
  induction H as [|i range Hi _ IH]; intros headerStr; cbn [word_loop map concat].
  - now rewrite app_nil_r.
  - rewrite (word_bytes_in_range _ _ Hi), IH, <- app_assoc. reflexivity.
Qed.

Lemma pack_words_closed (variableName : str) (data : list byte) (k : nat) :
  length data = 4 * k ->
  pack_words variableName data
  = Some (array_declaration k variableName
          ++ concat (map (fun i => word_token k i (swapped_word data i)) (seq 0 k))
          ++ lit "};" ++ [NL]).
Proof.
  intros H. unfold pack_words. rewrite H, ceil_div4_aligned.
  rewrite word_loop_in_range; [now rewrite <- app_assoc|].
  apply Forall_forall. intros i Hi. apply in_seq in Hi. lia.
Qed.

Lemma pack_words_raises (variableName : str) (data : list byte) :
  length data mod 4 <> 0 -> pack_words variableName data = None.
Proof.
  intros H. unfold pack_words.
  rewrite word_loop_index_error; [reflexivity|].
  apply Exists_exists. exists (length data / 4). split.
  - apply in_seq. rewrite (ceil_div4_unaligned _ H). lia.
  - apply word_bytes_out_of_range.
    pose proof (Nat.div_mod_eq (length data) 4) as E.
    pose proof (Nat.mod_upper_bound (length data) 4 ltac:(discriminate)) as B.
    lia.
Qed.

(** A binary of 4k bytes gives k tokens: word i is the hexadecimal form of
    bytes 4i+3, 4i+2, 4i+1, 4i, a comma after every word but the last and a
    line break after every eighth. *)
Lemma pack_words_aligned (variableName : str) (data : list byte) (k : nat) :
  length data = 4 * k ->
  pack_words variableName data
  = Some (array_declaration k variableName
          ++ concat (map (fun i => word_token k i (swapped_word data i)) (seq 0 k))
          ++ lit "};" ++ [NL]).
Proof. exact (pack_words_closed variableName data k). Qed.

(** ** The command line *)

Lemma freshness_gate_ret (w : World) (l l' : Log) (a : Args) (files : list str)
    (entryPointFile : str) :
  freshness_gate w l = Ret (a, files, entryPointFile) l' ->
  a = parse_args (os_path w) (argv w)
  /\ files = glob_glob w (glob_pattern (hlslFolder a))
  /\ l' = l.
Proof.
  unfold freshness_gate.
  destruct ((length (argv w) <? 3) || (6 <? length (argv w))).
  - unfold bind. destruct (print_all usage l); discriminate.
  - destruct (scan_files _ _ _ _ _ _) as [[r e]|]; [|discriminate].
    destruct r; cbn [negb]; [|discriminate].
    unfold ret. intros H. injection H as <- <- _ <-. now repeat split.
Qed.

Section KeepsPacked.

Lemma keeps_ret {A} (a : A) : keeps_packed (ret a).
Proof. intros l. reflexivity. Qed.

Lemma keeps_bind {A B} (m : Script A) (k : A -> Script B) :
  keeps_packed m -> (forall a, keeps_packed (k a)) -> keeps_packed (bind m k).
Proof.
  intros Hm Hk l. unfold bind. specialize (Hm l).
  destruct (m l) as [a l'|s l']; cbn [log_of] in Hm |- *; [|exact Hm].
  now rewrite Hk.
Qed.

Lemma keeps_print (s : str) : keeps_packed (print s).
Proof. intros l. reflexivity. Qed.

Lemma keeps_sys_exit {A} (code : Z) : keeps_packed (@sys_exit A code).
Proof. intros l. reflexivity. Qed.

Lemma keeps_raise {A} (e : Exn) : keeps_packed (@raise A e).
Proof. intros l. reflexivity. Qed.

Lemma keeps_write_header (s : str) : keeps_packed (write_header s).
Proof. intros l. reflexivity. Qed.

Lemma keeps_open_header : keeps_packed open_header.
Proof. intros l. reflexivity. Qed.

Lemma keeps_print_all (ls : list str) : keeps_packed (print_all ls).
Proof.
  induction ls as [|s ls IH]; [apply keeps_ret|].
  apply keeps_bind; [apply keeps_print | intros _; exact IH].
Qed.

Create HintDb keeps.
#[local] Hint Resolve keeps_ret keeps_print keeps_sys_exit keeps_raise
  keeps_write_header keeps_open_header keeps_print_all : keeps.

Ltac keeps :=
  repeat first
    [ apply keeps_bind; [|intros ?]
    | match goal with
      | |- keeps_packed (if ?b then _ else _) => destruct b
      | |- keeps_packed (match ?x with _ => _ end) => destruct x
      end
    | solve [auto with keeps] ].

Lemma keeps_minify_file (w : World) (numFiles : nat) (hlslFile : str)
    (n : nat) (directoryString : str) :
  keeps_packed (minify_file w numFiles hlslFile n directoryString).
Proof. unfold minify_file. keeps. Qed.

Lemma keeps_minify_files (w : World) (numFiles : nat) (files : list str)
    (n : nat) (directoryString : str) :
  keeps_packed (minify_files w numFiles files n directoryString).
Proof.
  revert n directoryString.
  induction files as [|f files IH]; intros n d; cbn [minify_files].
  - apply keeps_ret.
  - apply keeps_bind; [apply keeps_minify_file | intros r; apply IH].
Qed.

Lemma keeps_minifier (w : World) (a : Args) (files : list str) :
  keeps_packed (minifier w a files).
Proof.
  unfold minifier. pose proof keeps_minify_files. keeps.
Qed.

Lemma keeps_freshness_gate (w : World) : keeps_packed (freshness_gate w).
Proof. unfold freshness_gate. keeps. Qed.

End KeepsPacked.

(** C8. With five or six arguments the compiler path of the command line
    is not read: [slangc] stays empty, the binary packer is switched off
    whatever the entry point is, and the run writes no secondary header. *)
Theorem compiler_ignored_beyond_four_args (w : World) :
  length (argv w) = 5 \/ length (argv w) = 6 ->
  slangc (parse_args (os_path w) (argv w)) = []
  /\ (forall entryPointFile,
        packer_enabled (slangc (parse_args (os_path w) (argv w))) entryPointFile = false)
  /\ packed (snd (run w)) = None.
Proof.
  intros Hargc.
  assert (Hs : slangc (parse_args (os_path w) (argv w)) = []).
  { unfold parse_args. cbn [slangc]. now destruct Hargc as [-> | ->]. }
  split; [exact Hs|]. split; [intros e; now rewrite Hs|].
  unfold run, main, bind.
  pose proof (keeps_freshness_gate w empty_log) as G.
  destruct (freshness_gate w empty_log) as [[[a files] e] l0|s l0] eqn:E;
    cbn [log_of] in G; [|exact G].
  apply freshness_gate_ret in E as [-> [_ ->]]. rewrite Hs. cbn [packer_enabled length Nat.ltb Nat.leb andb].
  unfold ret at 1.
  pose proof (keeps_minifier w (parse_args (os_path w) (argv w)) files empty_log) as M.
  destruct (minifier _ _ _ _); exact M.
Qed.

Lemma compiler_ignored_beyond_four_args_witness :
  nth_error (argv (Sample.with_compiler Sample.args5 Sample.linux [x01; x02; x03; x04])) 3
  = Some (lit "slangc")
  /\ fst (run (Sample.with_compiler Sample.args5 Sample.linux [x01; x02; x03; x04]))
     = Finished
  /\ packed (snd (run (Sample.with_compiler Sample.args5 Sample.linux [x01; x02; x03; x04])))
     = None.
Proof.
  split; [reflexivity|]. split; [vm_compute; reflexivity|].
  apply (compiler_ignored_beyond_four_args
           (Sample.with_compiler Sample.args5 Sample.linux [x01; x02; x03; x04])).
  left. reflexivity.
Defined.

(** C9. The target of the command line is never used: [target] is empty
    after parsing whatever the arguments are, a sixth argument lands in
    [mainEntryPoint], and the choice of lines 67-76 gives the platform's
    own target for every value of [target], valid or not. *)
Theorem target_argument_unused (w : World) (t : str) :
  target (parse_args (os_path w) (argv w)) = []
  /\ (forall P a0 a1 a2 a3 a4 a5,
        mainEntryPoint (parse_args P [a0; a1; a2; a3; a4; a5]) = a5)
  /\ choose_target w t = choose_target w [].
Proof.
  split; [reflexivity|]. split; [reflexivity|].
  unfold choose_target.
  assert (H : negb (str_eqb t (lit "metal")) || negb (str_eqb t (lit "dxil"))
              || negb (str_eqb t (lit "spirv")) = true).
  { destruct (str_eqb t (lit "metal")) eqn:E; [|reflexivity].
    apply str_eqb_eq in E. subst t. reflexivity. }
  rewrite H. reflexivity.
Qed.

(** With six arguments the target ends up as the entry-point name. *)
Example sixth_argument_is_entry_point :
  mainEntryPoint (parse_args Posix.path Sample.args6) = lit "spirv"
  /\ target (parse_args Posix.path Sample.args6) = [].
Proof. split; reflexivity. Qed.

(** On macOS the packer compiles for Metal although [spirv] was asked for. *)
Example choose_target_overrides :
  choose_target (Sample.with_compiler Sample.args4 Sample.darwin []) (lit "spirv") empty_log
  = Ret (lit "metal") empty_log.
Proof. vm_compute. reflexivity. Qed.

(** ** The minifier *)

Lemma minify_file_closed (w : World) (numFiles : nat) (hlslFile : str) (n : nat)
    (directoryString : str) (l : Log) (text : str) :
  read_text w hlslFile = Some text ->
  minify_file w numFiles hlslFile n directoryString l
  = Ret (n + 1,
         directoryString
         ++ directory_rows (os_path w) numFiles n [hlslFile])
        {| printed := printed l ++ file_messages (os_path w) numFiles n [hlslFile];
           packed := packed l;
           header := option_map (fun h => h ++ file_section w hlslFile) (header l) |}.
Proof.
  intros Hread. unfold minify_file, file_section. rewrite Hread.
  unfold bind, print, write_header, ret. cbn [file_messages directory_rows].
  rewrite !app_nil_r.
  destruct (str_eqb (stringName (os_path w) hlslFile) directorySymbolName);
    cbn [printed packed header];
    destruct (n + 1 =? numFiles); rewrite <- ?app_assoc;
    destruct (header l); cbn [option_map]; rewrite <- ?app_assoc; reflexivity.
Qed.

Lemma minify_files_closed (w : World) (numFiles : nat) (files : list str) (n : nat)
    (directoryString : str) (l : Log) :
  Forall (fun f => read_text w f <> None) files ->
  minify_files w numFiles files n directoryString l
  = Ret (n + length files,
         directoryString ++ directory_rows (os_path w) numFiles n files)
        {| printed := printed l ++ file_messages (os_path w) numFiles n files;
           packed := packed l;
           header := option_map (fun h => h ++ concat (map (file_section w) files))
                       (header l) |}.
Proof.
  intros Hread. revert n directoryString l.
  induction Hread as [|f files Hf _ IH]; intros n d l.
  - cbn [minify_files length file_messages directory_rows map concat]. unfold ret.
    rewrite Nat.add_0_r, !app_nil_r. destruct l as [p k [h|]]; cbn; now rewrite ?app_nil_r.
  - cbn [minify_files]. unfold bind.
    destruct (read_text w f) as [text|] eqn:E; [|congruence].
    rewrite (minify_file_closed w numFiles f n d l text E). cbn [fst snd].
    rewrite IH. cbn [printed packed header length map concat].
    f_equal.
    + f_equal; [lia|]. cbn [directory_rows]. rewrite !app_nil_r, <- !app_assoc.
      reflexivity.
    + f_equal.
      * cbn [file_messages]. rewrite !app_nil_r, <- !app_assoc. reflexivity.
      * destruct (header l); cbn [option_map]; [|reflexivity].
        now rewrite <- app_assoc.
Qed.

Lemma directory_rows_entries (P : OsPath) (numFiles n : nat) (files : list str) :
  n + length files = numFiles ->
  directory_rows P numFiles n files = directory_entries (directory_entry P) files.
Proof.
  revert n. induction files as [|f files IH]; intros n H; [reflexivity|].
  cbn [directory_rows]. cbn [length] in H. destruct files as [|g files].
  - cbn [length] in H. replace (n + 1 =? numFiles) with true
      by (symmetry; apply Nat.eqb_eq; lia).
    cbn. reflexivity.
  - cbn [length] in H. replace (n + 1 =? numFiles) with false
      by (symmetry; apply Nat.eqb_neq; lia).
    rewrite (IH (n + 1)) by (cbn [length]; lia).
    unfold directory_entries.
    change (removelast (f :: g :: files)) with (f :: removelast (g :: files)).
    change (last (f :: g :: files) []) with (last (g :: files) []).
    cbn [map concat]. rewrite <- !app_assoc. reflexivity.
Qed.

(** The minifier in closed form: when the output can be opened and every
    input read, it comes back, and the header is the head, one section per
    file, the directory table and the closing brace. *)
Lemma minifier_closed (w : World) (a : Args) (files : list str) (l : Log) :
  open_write w (outputFile a) = true ->
  Forall (fun f => read_text w f <> None) files ->
  minifier w a files l
  = Ret tt
      {| printed :=
           printed l
           ++ (lit "Minifying " ++ str_of_nat (length files) ++ lit " files from "
               ++ hlslFolder a)
           :: file_messages (os_path w) (length files) 0 files;
         packed := packed l;
         header :=
           Some (header_head w a (length files)
                 ++ concat (map (file_section w) files)
                 ++ directory_head
                 ++ directory_entries (directory_entry (os_path w)) files
                 ++ lit "}" ++ [NL]) |}.
Proof.
  intros Hopen Hread. unfold minifier. rewrite Hopen.
  unfold bind at 1. unfold print at 1.
  unfold bind at 1. unfold open_header at 1.
  unfold bind at 1. unfold write_header at 1.
  unfold bind at 1. rewrite (minify_files_closed w _ files 0 _ _ Hread).
  unfold bind, write_header.
  cbn [printed packed header option_map fst snd app].
  rewrite (directory_rows_entries (os_path w) (length files) 0 files eq_refl).
  f_equal. f_equal.
  - rewrite <- app_assoc. reflexivity.
  - f_equal. rewrite <- !app_assoc. reflexivity.
Qed.

Lemma run_reaches_minifier (w : World) (a : Args) (files : list str) (l : Log) :
  reaches_minifier w a files l ->
  run w = match minifier w a files l with
          | Ret _ l' => (Finished, l')
          | Stop s l' => (s, l')
          end.
Proof.
  intros [e [l0 [G K]]]. unfold run, main. unfold bind at 1. rewrite G.
  unfold bind at 1. rewrite K. reflexivity.
Qed.

Lemma conflict_message_printed (P : OsPath) (numFiles n : nat) (files : list str)
    (f : str) :
  In f files -> stringName P f = directorySymbolName ->
  In (conflict_message P f) (file_messages P numFiles n files).
Proof.
  intros Hin Hname. revert n.
  induction files as [|g files IH]; intros n; [contradiction|].
  cbn [file_messages]. right. apply in_or_app. destruct Hin as [->|Hin].
  - left. rewrite Hname, str_eqb_refl. now left.
  - right. now apply IH.
Qed.

Lemma freshness_gate_nonempty (w : World) (l l' : Log) (a : Args)
    (files : list str) (entryPointFile : str) :
  freshness_gate w l = Ret (a, files, entryPointFile) l' -> files <> [].
Proof.
  intros G Hnil. pose proof G as G'.
  apply freshness_gate_ret in G' as [-> [Hf ->]].
  unfold freshness_gate in G. cbv zeta in G.
  destruct ((length (argv w) <? 3) || (6 <? length (argv w))).
  - unfold bind in G. destruct (print_all usage l); discriminate.
  - rewrite <- Hf, Hnil in G. cbn in G. discriminate.
Qed.

(** C6. In every run that reaches the minifier, opens the output and reads
    every input, the header ends with a directory table that has exactly one
    entry per input file, in discovery order; the identifier of an entry is
    the name of that file's string constant, [g_s] followed by the base name
    without its extension; every entry but the last is followed by a comma,
    the last one by the closing brace. *)
Theorem directory_table_complete (w : World) (a : Args) (files : list str) (l : Log) :
  reaches_minifier w a files l ->
  open_write w (outputFile a) = true ->
  Forall (fun f => read_text w f <> None) files ->
  let P := os_path w in
  let constant_name := fun f => lit "g_s" ++ fst (splitext P (basename P f)) in
  let entry := fun f =>
    [TAB; TAB] ++ lit "{ " ++ [DQ] ++ basename P f ++ [DQ] ++ lit ", "
    ++ constant_name f ++ lit " }" in
  exists l',
    run w = (Finished, l')
    /\ files <> []
    /\ header l'
       = Some (header_head w a (length files)
               ++ concat (map (file_section w) files)
               ++ directory_head
               ++ concat (map (fun f => entry f ++ lit "," ++ [NL]) (removelast files))
               ++ entry (last files []) ++ [NL; TAB] ++ lit "};" ++ [NL]
               ++ lit "}" ++ [NL])
    /\ forall f text, read_text w f = Some text ->
         file_section w f
         = [NL; TAB] ++ lit "// Minified string created from " ++ f ++ [NL]
           ++ [TAB] ++ lit "static const std::string " ++ constant_name f
           ++ lit " = " ++ [NL] ++ constant_body f (readlines text).
Proof.
  intros Hreach Hopen Hread P constant_name entry.
  assert (Hne : files <> []).
  { destruct Hreach as [e [l0 [G _]]]. exact (freshness_gate_nonempty w _ _ _ _ _ G). }
  eexists. split; [|split; [exact Hne|split]].
  - rewrite (run_reaches_minifier w a files l Hreach), (minifier_closed w a files l Hopen Hread).
    reflexivity.
  - cbn [header]. f_equal. f_equal. f_equal. f_equal.
    unfold directory_entries. destruct files as [|f files]; [congruence|].
    rewrite <- !app_assoc. reflexivity.
  - intros f text Hf. unfold file_section. rewrite Hf.
    unfold constant_head. rewrite <- !app_assoc. reflexivity.
Qed.

Lemma directory_table_complete_witness :
  exists l',
    run Sample.stale = (Finished, l')
    /\ exists text, header l' = Some text.
Proof.
  destruct (directory_table_complete Sample.stale
              (parse_args Posix.path Sample.args3) [Sample.foo; Sample.clash]
              empty_log)
    as [l' [R [_ [H _]]]].
  - exists [], empty_log. split; vm_compute; reflexivity.
  - reflexivity.
  - vm_compute. repeat constructor; discriminate.
  - exists l'. split; [exact R|]. eexists. exact H.
Defined.

(** C7. When the name derived for a file is the directory table's own
    identifier, the run prints the diagnostic that names the file and the
    identifier, goes on and ends normally, and the whole header is written:
    it declares the string constant [g_sDirectory] for the file and ends
    with the directory table, itself named [g_sDirectory], in which the
    entry of the file refers to that name. *)
Theorem name_conflict_reported (w : World) (a : Args) (files : list str) (l : Log)
    (f : str) :
  reaches_minifier w a files l ->
  open_write w (outputFile a) = true ->
  Forall (fun g => read_text w g <> None) files ->
  In f files ->
  lit "g_s" ++ fst (splitext (os_path w) (basename (os_path w) f)) = lit "g_sDirectory" ->
  let P := os_path w in
  let entry := fun g =>
    [TAB; TAB] ++ lit "{ " ++ [DQ] ++ basename P g ++ [DQ] ++ lit ", "
    ++ (lit "g_s" ++ fst (splitext P (basename P g))) ++ lit " }" in
  exists l',
    run w = (Finished, l')
    /\ In (lit "Invalid HLSL filename " ++ basename P f
           ++ lit " name conflict with built-in directory map named "
           ++ lit "g_sDirectory")
          (printed l')
    /\ header l'
       = Some (header_head w a (length files)
               ++ concat (map (file_section w) files)
               ++ [NL; TAB]
               ++ lit "// Directory map, used to get file contents from HLSL filename."
               ++ [NL; TAB]
               ++ lit "static const std::map<std::string , const std::string &> g_sDirectory = {"
               ++ [NL]
               ++ concat (map (fun g => entry g ++ lit "," ++ [NL]) (removelast files))
               ++ entry (last files []) ++ [NL; TAB] ++ lit "};" ++ [NL]
               ++ lit "}" ++ [NL])
    /\ (exists text,
          read_text w f = Some text
          /\ file_section w f
             = [NL; TAB] ++ lit "// Minified string created from " ++ f ++ [NL]
               ++ [TAB] ++ lit "static const std::string g_sDirectory = " ++ [NL]
               ++ constant_body f (readlines text))
    /\ entry f
       = [TAB; TAB] ++ lit "{ " ++ [DQ] ++ basename P f ++ [DQ]
         ++ lit ", g_sDirectory }".
Proof.
  intros Hreach Hopen Hread Hin Hname P entry.
  assert (Hne : files <> []) by (intros F; subst files; exact Hin).
  eexists. split; [|split; [|split; [|split]]].
  - rewrite (run_reaches_minifier w a files l Hreach),
      (minifier_closed w a files l Hopen Hread). reflexivity.
  - cbn [printed]. apply in_or_app. right. right.
    exact (conflict_message_printed (os_path w) _ 0 files f Hin Hname).
  - cbn [header]. f_equal. f_equal. f_equal.
    assert (Hd : forall rest,
               [NL; TAB]
               ++ lit "// Directory map, used to get file contents from HLSL filename."
               ++ [NL; TAB]
               ++ lit "static const std::map<std::string , const std::string &> g_sDirectory = {"
               ++ [NL] ++ rest
               = directory_head ++ rest) by (intros rest; reflexivity).
    rewrite Hd. f_equal.
    unfold directory_entries. destruct files as [|g files]; [congruence|].
    rewrite <- !app_assoc. reflexivity.
  - rewrite Forall_forall in Hread. specialize (Hread f Hin).
    destruct (read_text w f) as [text|] eqn:E; [|congruence].
    exists text. split; [reflexivity|].
    unfold file_section. rewrite E. unfold constant_head, stringName.
    rewrite Hname, <- ?app_assoc. reflexivity.
  - unfold entry, P. rewrite Hname, <- ?app_assoc. reflexivity.
Qed.

Lemma name_conflict_reported_witness :
  exists l' text,
    run Sample.stale = (Finished, l')
    /\ In (lit "Invalid HLSL filename Directory.hlsl name conflict with built-in directory map named g_sDirectory")
          (printed l')
    /\ header l' = Some text.
Proof.
  destruct (name_conflict_reported Sample.stale
              (parse_args Posix.path Sample.args3) [Sample.foo; Sample.clash]
              empty_log Sample.clash)
    as [l' [R [Hin [Hh _]]]].
  - exists [], empty_log. split; vm_compute; reflexivity.
  - reflexivity.
  - vm_compute. repeat constructor; discriminate.
  - right. now left.
  - vm_compute. reflexivity.
  - exists l'. eexists. split; [exact R|]. split; [exact Hin | exact Hh].
Defined.

(** * Further properties of the script *)

(** ** Runs that end before the minifier *)

(** With fewer than two or more than five arguments after the script name,
    the run prints the six usage lines, exits with status -1 and writes
    nothing (lines 13-21). *)
Theorem usage_error (w : World) :
  length (argv w) < 3 \/ 6 < length (argv w) ->
  run w = (SysExit (-1), {| printed := usage; packed := None; header := None |}).
Proof.
  intros H. unfold run, main, freshness_gate. unfold bind at 1.
  replace ((length (argv w) <? 3) || (6 <? length (argv w))) with true.
  - reflexivity.
  - symmetry. apply orb_true_iff.
    destruct H as [H|H]; [left | right]; now apply Nat.ltb_lt.
Qed.

Lemma usage_error_witness :
  run (Sample.world [Sample.script; lit "shaders"] [Sample.foo] None Sample.linux [])
  = (SysExit (-1), {| printed := usage; packed := None; header := None |}).
Proof. apply usage_error. left. vm_compute. lia. Defined.

(** When [os.stat] fails on one of the files that glob returned, the
    exception is not caught: the run dies having printed and written
    nothing, whatever the other files are (lines 52-57). *)
Theorem input_stat_failure (w : World) :
  3 <= length (argv w) <= 6 ->
  Exists (fun f => stat_mtime w f = None)
    (glob_glob w (glob_pattern (hlslFolder (parse_args (os_path w) (argv w))))) ->
  run w = (Uncaught OSError, empty_log).
Proof.
  intros Hargc Hstat. unfold run, main, freshness_gate. unfold bind at 1.
  rewrite (argc_in_range _ Hargc). cbv zeta.
  now rewrite (scan_files_failure w _ _ _ false [] Hstat).
Qed.

Lemma input_stat_failure_witness :
  run Sample.dangling = (Uncaught OSError, empty_log).
Proof.
  apply input_stat_failure.
  - vm_compute. lia.
  - apply Exists_cons_tl. apply Exists_cons_hd. reflexivity.
Defined.

(** ** The transform of a line *)

Lemma strip_comment_terminated_witness :
  strip_comment (lit "float x; " ++ [SLASH; SLASH] ++ lit " c" ++ [NL])
  = lit "float x; " ++ [NL].
Proof.
  apply strip_comment_terminated.
  - reflexivity.
  - intros H. vm_compute in H.
    repeat (destruct H as [H|H]; [discriminate H|]). exact H.
  - intros H. vm_compute in H.
    repeat (destruct H as [H|H]; [discriminate H|]). exact H.
Defined.

Lemma single_spaced_escape (s : str) :
  (forall b, single_spaced b (flat_map escape_char (squeeze true s)) = true)
  /\ single_spaced false (flat_map escape_char (squeeze false s)) = true.
Proof.
  induction s as [|c s [IH1 IH0]]; [split; reflexivity|].
  cbn [squeeze]. destruct (hspace c) eqn:Hc.
  - cbn [app]. split; [exact IH1|].
    cbn [flat_map escape_char app]. change (escape_char SP) with [SP].
    cbn [app single_spaced]. change (hspace SP) with true. cbv iota.
    rewrite N.eqb_refl. cbn [negb andb]. apply IH1.
  - assert (H : forall b, single_spaced b (flat_map escape_char (c :: squeeze false s)) = true).
    { intros b. cbn [flat_map]. unfold escape_char at 1.
      destruct (N.eqb_spec c BS) as [->|H1]; [exact IH0|].
      destruct (N.eqb_spec c NL) as [->|H2]; [exact IH0|].
      destruct (N.eqb_spec c DQ) as [->|H3]; [exact IH0|].
      cbn [app single_spaced]. rewrite Hc. exact IH0. }
    split; [exact H | exact (H false)].
Qed.

(** After the transform a line holds no tab and no run of spaces: every
    whitespace character other than a line terminator is a single space
    (line 188, kept by line 190). *)
Theorem minify_line_single_spaced (ln : str) :
  single_spaced false (minify_line ln) = true.
Proof.
  rewrite minify_line_escape, collapse_whitespace_squeeze.
  exact (proj2 (single_spaced_escape (strip_comment ln))).
Qed.

Lemma squeeze_idempotent (s : str) :
  (forall b, squeeze b (squeeze true s) = squeeze true s)
  /\ squeeze false (squeeze false s) = squeeze false s
  /\ squeeze true (squeeze false s) = squeeze true s.
Proof.
  induction s as [|c s [IH1 [IH0 IH10]]]; [repeat split; reflexivity|].
  cbn [squeeze]. destruct (hspace c) eqn:Hc; cbn [app].
  - split; [exact IH1|].
    cbn [squeeze]. change (hspace SP) with true. cbv iota. cbn [app].
    rewrite (IH1 true). split; reflexivity.
  - cbn [squeeze]. rewrite Hc, IH0. repeat split; reflexivity.
Qed.

(** Collapsing whitespace twice changes nothing more (line 188). *)
Theorem collapse_whitespace_idempotent (s : str) :
  collapse_whitespace (collapse_whitespace s) = collapse_whitespace s.
Proof.
  rewrite !collapse_whitespace_squeeze.
  exact (proj1 (proj2 (squeeze_idempotent s))).
Qed.

Lemma unescape_escape_app (u rest : str) :
  unescape (flat_map escape_char u ++ rest) = u ++ unescape rest.
Proof.
  induction u as [|c u IH]; [reflexivity|].
  cbn [flat_map]. rewrite <- app_assoc. unfold escape_char at 1.
  destruct (N.eqb_spec c BS) as [->|H1]; [simpl; now rewrite IH|].
  destruct (N.eqb_spec c NL) as [->|H2]; [simpl; now rewrite IH|].
  destruct (N.eqb_spec c DQ) as [->|H3]; [simpl; now rewrite IH|].
  cbn [app unescape]. apply N.eqb_neq in H1. now rewrite H1, IH.
Qed.

Lemma unescape_constant_stripped (hlslFile : str) (lines : list str) :
  unescape (string_constant hlslFile lines)
  = concat (map stripped_line (line_directive hlslFile :: lines)) ++ [NL].
Proof.
  rewrite string_constant_concat, concat_minify_lines, unescape_escape_app.
  reflexivity.
Qed.

(** ** The segments of a string constant *)

Lemma well_escaped_app_aux (a : str) :
  (forall b, well_escaped a = true -> well_escaped (a ++ b) = well_escaped b)
  /\ (forall c b, well_escaped (c :: a) = true ->
                  well_escaped ((c :: a) ++ b) = well_escaped b).
Proof.
  induction a as [|d a [IH1 IH2]].
  - split; [reflexivity|]. intros c b H. cbn [well_escaped] in H.
    cbn [app well_escaped]. destruct (N.eqb c BS); [discriminate|].
    apply andb_true_iff in H as [H _]. now rewrite H.
  - split; [exact (IH2 d)|]. intros c b H.
    cbn [app well_escaped] in H |- *. destruct (N.eqb c BS).
    + apply andb_true_iff in H as [Hd Ha]. rewrite Hd. cbn [andb].
      now apply IH1.
    + apply andb_true_iff in H as [Hc Ha]. rewrite Hc. cbn [andb].
      exact (IH2 d b Ha).
Qed.

Lemma well_escaped_app (a b : str) :
  well_escaped a = true -> well_escaped b = true -> well_escaped (a ++ b) = true.
Proof.
  intros Ha Hb. now rewrite (proj1 (well_escaped_app_aux a) b Ha).
Qed.

Lemma well_escaped_escape (u : str) : well_escaped (flat_map escape_char u) = true.
Proof.
  induction u as [|c u IH]; [reflexivity|].
  cbn [flat_map]. apply well_escaped_app; [|exact IH].
  unfold escape_char.
  destruct (N.eqb_spec c BS) as [->|H1]; [reflexivity|].
  destruct (N.eqb_spec c NL) as [->|H2]; [reflexivity|].
  destruct (N.eqb_spec c DQ) as [->|H3]; [reflexivity|].
  cbn [well_escaped]. apply N.eqb_neq in H1, H2, H3. now rewrite H1, H2, H3.
Qed.

Lemma line_loop_well_escaped (numLines : nat) (lines : list str) (lineNo : nat)
    (curr : str) :
  well_escaped curr = true ->
  Forall (fun seg => well_escaped seg = true) (fst (line_loop numLines lines lineNo curr))
  /\ well_escaped (snd (line_loop numLines lines lineNo curr)) = true.
Proof.
  revert lineNo curr. induction lines as [|ln lines IH]; intros lineNo curr Hc.
  - split; [constructor | exact Hc].
  - cbn [line_loop].
    set (ln' := if lineNo + 1 =? numLines then minify_line ln ++ [BS; LETTER_n]
                else minify_line ln).
    assert (Hln : well_escaped ln' = true).
    { unfold ln'. rewrite minify_line_escape.
      destruct (lineNo + 1 =? numLines); [apply well_escaped_app|];
        (apply well_escaped_escape || reflexivity). }
    assert (Hnew : well_escaped (curr ++ ln') = true) by now apply well_escaped_app.
    destruct (100 <? length (curr ++ ln')).
    + destruct (IH (lineNo + 1) [] eq_refl) as [H1 H2].
      destruct (line_loop numLines lines (lineNo + 1) []) as [flushed last].
      cbn [fst snd] in *. split; [now constructor | exact H2].
    + exact (IH (lineNo + 1) _ Hnew).
Qed.

(** Every segment that lines 204 and 208 put between double quotes can
    stand there: it holds no bare quote and no line feed, and no cut falls
    inside an escape, since a segment always ends with a whole line. *)
Theorem segments_well_escaped (hlslFile : str) (lines : list str) :
  Forall (fun seg => well_escaped seg = true) (fst (file_segments hlslFile lines))
  /\ well_escaped (snd (file_segments hlslFile lines)) = true.
Proof. unfold file_segments. now apply line_loop_well_escaped. Qed.

Lemma line_loop_lengths (numLines : nat) (lines : list str) (lineNo : nat)
    (curr : str) :
  length curr <= 100 ->
  Forall (fun seg => 100 < length seg) (fst (line_loop numLines lines lineNo curr))
  /\ length (snd (line_loop numLines lines lineNo curr)) <= 100.
Proof.
  revert lineNo curr. induction lines as [|ln lines IH]; intros lineNo curr Hc.
  - split; [constructor | exact Hc].
  - cbn [line_loop].
    destruct (100 <? length _) eqn:E.
    + destruct (IH (lineNo + 1) [] (Nat.le_0_l _)) as [H1 H2].
      destruct (line_loop numLines lines (lineNo + 1) []) as [flushed last].
      cbn [fst snd] in *. split; [|exact H2].
      constructor; [now apply Nat.ltb_lt | exact H1].
    + apply IH. now apply Nat.ltb_ge.
Qed.

(** The segments written with a continuation (line 204) are all longer than
    100 characters, and the one that closes the constant (line 208) has at
    most 100: a segment is flushed as soon as it passes that length. *)
Theorem segment_lengths (hlslFile : str) (lines : list str) :
  Forall (fun seg => 100 < length seg) (fst (file_segments hlslFile lines))
  /\ length (snd (file_segments hlslFile lines)) <= 100.
Proof. unfold file_segments. apply line_loop_lengths. cbn. lia. Qed.

(** ** The line statement *)

Lemma replace_char_absent (a : char) (repl s : str) :
  ~ In a s -> replace_char a repl s = s.
Proof.
  induction s as [|c s IH]; intros H; [reflexivity|].
  change (replace_char a repl (c :: s))
    with ((if N.eqb c a then repl else [c]) ++ replace_char a repl s).
  destruct (N.eqb_spec c a) as [->|_].
  - exfalso. apply H. now left.
  - rewrite IH; [reflexivity | intros H'; apply H; now right].
Qed.

(** When the path of a file holds a double slash, the comment stripping of
    line 182 also applies to the line statement of line 173: the statement
    keeps the path up to the double slash and loses the rest, closing quote
    included. *)
Theorem line_directive_double_slash (pre post : str) :
  ~ In BS (pre ++ [SLASH; SLASH] ++ post) ->
  ~ In NL pre -> ~ In NL post ->
  str_in [SLASH; SLASH] (pre ++ [SLASH]) = false ->
  strip_comment (line_directive (pre ++ [SLASH; SLASH] ++ post))
  = lit "#line 1 " ++ [DQ] ++ pre ++ [NL].
Proof.
  intros Hbs Hpre Hpost Hin. unfold line_directive.
  rewrite re_sub_char, (replace_char_absent BS [SLASH] _ Hbs).
  replace (lit "#line 1 " ++ [DQ] ++ (pre ++ [SLASH; SLASH] ++ post) ++ [DQ; NL])
    with ((lit "#line 1 " ++ [DQ] ++ pre) ++ [SLASH; SLASH] ++ (post ++ [DQ]) ++ [NL])
    by (rewrite <- !app_assoc; reflexivity).
  unfold strip_comment. rewrite sub_comment_terminated.
  - now rewrite <- !app_assoc.
  - rewrite <- !app_assoc. cbn. exact Hin.
  - intros H. apply in_app_or in H as [H|H].
    + vm_compute in H. repeat (destruct H as [H|H]; [discriminate H|]). exact H.
    + apply in_app_or in H as [H|H]; [|now apply Hpre].
      destruct H as [H|[]]. discriminate H.
  - intros H. apply in_app_or in H as [H|H]; [now apply Hpost|].
    destruct H as [H|[]]. discriminate H.
Qed.

Lemma line_directive_double_slash_witness :
  strip_comment (line_directive (lit "shaders" ++ [SLASH; SLASH] ++ lit "foo.hlsl"))
  = lit "#line 1 " ++ [DQ] ++ lit "shaders" ++ [NL].
Proof.
  apply line_directive_double_slash.
  - intros H. vm_compute in H. repeat (destruct H as [H|H]; [discriminate H|]). exact H.
  - intros H. vm_compute in H. repeat (destruct H as [H|H]; [discriminate H|]). exact H.
  - intros H. vm_compute in H. repeat (destruct H as [H|H]; [discriminate H|]). exact H.
  - reflexivity.
Defined.

(** ** The words of the binary packer *)

Lemma pack_words_aligned_witness :
  pack_words (lit "g_sMainEntryPointsSPIRV") [x01; x02; x03; x04; x05; x06; x07; xff]
  = Some (lit "static const array<unsigned int, 2> g_sMainEntryPointsSPIRV = {" ++ [NL]
          ++ lit "0x04030201, 0xff070605};" ++ [NL]).
Proof.
  rewrite (pack_words_aligned (lit "g_sMainEntryPointsSPIRV")
             [x01; x02; x03; x04; x05; x06; x07; xff] 2 eq_refl).
  vm_compute. reflexivity.
Defined.

Lemma hex_byte_value (b : byte) :
  exists h l, hex_byte b = [h; l]
              /\ (16 * hex_value h + hex_value l)%N = Byte.to_N b.
Proof.
  eexists _, _. split; [reflexivity|]. destruct b; reflexivity.
Qed.

Lemma hex_number_swapped (b0 b1 b2 b3 : byte) :
  hex_number (flat_map hex_byte [b3; b2; b1; b0]) = little_endian b0 b1 b2 b3.
Proof.
  destruct (hex_byte_value b0) as [h0 [l0 [E0 V0]]].
  destruct (hex_byte_value b1) as [h1 [l1 [E1 V1]]].
  destruct (hex_byte_value b2) as [h2 [l2 [E2 V2]]].
  destruct (hex_byte_value b3) as [h3 [l3 [E3 V3]]].
  cbn [flat_map]. rewrite E0, E1, E2, E3.
  unfold hex_number, little_endian. cbn [app fold_left]. lia.
Qed.

(** Read as a hexadecimal number, the token of word i is the value of bytes
    4i to 4i+3 of the binary taken least significant byte first: the
    reversed order of line 115 makes each token the 32-bit word a
    little-endian machine would load. *)
Theorem word_value (data : list byte) (i : nat) (wordBytes : list byte) :
  word_bytes data i = Some wordBytes ->
  hex_number (flat_map hex_byte wordBytes)
  = little_endian (nth (i * 4 + 0) data x00) (nth (i * 4 + 1) data x00)
      (nth (i * 4 + 2) data x00) (nth (i * 4 + 3) data x00).
Proof.
  unfold word_bytes. intros H.
  destruct (nth_error data (i * 4 + 3)) as [b3|] eqn:E3; [|discriminate].
  destruct (nth_error data (i * 4 + 2)) as [b2|] eqn:E2; [|discriminate].
  destruct (nth_error data (i * 4 + 1)) as [b1|] eqn:E1; [|discriminate].
  destruct (nth_error data (i * 4 + 0)) as [b0|] eqn:E0; [|discriminate].
  injection H as <-.
  rewrite (nth_error_nth data _ x00 E0), (nth_error_nth data _ x00 E1),
    (nth_error_nth data _ x00 E2), (nth_error_nth data _ x00 E3).
  apply hex_number_swapped.
Qed.

Lemma word_value_witness :
  hex_number (flat_map hex_byte [x04; x03; x02; x01]) = 67305985%N.
Proof.
  exact (word_value [x01; x02; x03; x04] 0 [x04; x03; x02; x01] eq_refl).
Defined.

(** ** What the stages leave alone *)

Section KeepsHeader.

Lemma header_ret {A} (a : A) : keeps_header (ret a).
Proof. intros l. reflexivity. Qed.

Lemma header_bind {A B} (m : Script A) (k : A -> Script B) :
  keeps_header m -> (forall a, keeps_header (k a)) -> keeps_header (bind m k).
Proof.
  intros Hm Hk l. unfold bind. specialize (Hm l).
  destruct (m l) as [a l'|s l']; cbn [log_of] in Hm |- *; [|exact Hm].
  now rewrite Hk.
Qed.

Lemma header_print (s : str) : keeps_header (print s).
Proof. intros l. reflexivity. Qed.

Lemma header_sys_exit {A} (code : Z) : keeps_header (@sys_exit A code).
Proof. intros l. reflexivity. Qed.

Lemma header_raise {A} (e : Exn) : keeps_header (@raise A e).
Proof. intros l. reflexivity. Qed.

Lemma header_write_packed (path text : str) : keeps_header (write_packed path text).
Proof. intros l. reflexivity. Qed.

Lemma header_print_all (ls : list str) : keeps_header (print_all ls).
Proof.
  induction ls as [|s ls IH]; [apply header_ret|].
  apply header_bind; [apply header_print | intros _; exact IH].
Qed.

Create HintDb header.
#[local] Hint Resolve header_ret header_print header_sys_exit header_raise
  header_write_packed header_print_all : header.

Ltac header :=
  repeat first
    [ apply header_bind; [|intros ?]
    | match goal with
      | |- keeps_header (if ?b then _ else _) => destruct b
      | |- keeps_header (match ?x with _ => _ end) => destruct x
      end
    | solve [auto with header] ].

Lemma header_choose_target (w : World) (t : str) : keeps_header (choose_target w t).
Proof. unfold choose_target. header. Qed.

Lemma header_binary_packer (w : World) (a : Args) (entryPointFile : str) :
  keeps_header (binary_packer w a entryPointFile).
Proof.
  unfold binary_packer. pose proof (header_choose_target w (target a)). header.
Qed.

Lemma header_freshness_gate (w : World) : keeps_header (freshness_gate w).
Proof. unfold freshness_gate. header. Qed.

End KeepsHeader.

(** ** The target and the compiler *)

Lemma target_test_always_true (t : str) :
  negb (str_eqb t (lit "metal")) || negb (str_eqb t (lit "dxil"))
  || negb (str_eqb t (lit "spirv")) = true.
Proof.
  destruct (str_eqb t (lit "metal")) eqn:E; [|reflexivity].
  apply str_eqb_eq in E. subst t. reflexivity.
Qed.

Lemma choose_target_cases (w : World) (t : str) (l : Log) :
  (platform_system w = lit "Darwin" /\ choose_target w t l = Ret (lit "metal") l)
  \/ (platform_system w = lit "Windows" /\ choose_target w t l = Ret (lit "dxil") l)
  \/ (platform_system w = lit "Linux" /\ choose_target w t l = Ret (lit "spirv") l)
  \/ (platform_system w <> lit "Darwin" /\ platform_system w <> lit "Windows"
      /\ platform_system w <> lit "Linux"
      /\ choose_target w t l
         = Stop (SysExit (-1))
             {| printed := printed l ++ [lit "Unsupported platform: " ++ platform_system w];
                packed := packed l; header := header l |}).
Proof.
  unfold choose_target. rewrite target_test_always_true.
  destruct (str_eqb (platform_system w) (lit "Darwin")) eqn:E1.
  { left. apply str_eqb_eq in E1. now split. }
  destruct (str_eqb (platform_system w) (lit "Windows")) eqn:E2.
  { right. left. apply str_eqb_eq in E2. now split. }
  destruct (str_eqb (platform_system w) (lit "Linux")) eqn:E3.
  { right. right. left. apply str_eqb_eq in E3. now split. }
  right. right. right.
  apply str_eqb_neq in E1, E2, E3. repeat split; assumption.
Qed.


(** The target is read off the platform alone (lines 67-76): Metal on
    Darwin, DXIL on Windows, SPIR-V on Linux, nothing printed; on any other
    platform the run prints the platform's name and exits with status -1
    before the compiler is called. *)
Theorem choose_target_by_platform (w : World) (t : str) (l : Log) :
  (platform_system w = lit "Darwin" /\ choose_target w t l = Ret (lit "metal") l)
  \/ (platform_system w = lit "Windows" /\ choose_target w t l = Ret (lit "dxil") l)
  \/ (platform_system w = lit "Linux" /\ choose_target w t l = Ret (lit "spirv") l)
  \/ (platform_system w <> lit "Darwin" /\ platform_system w <> lit "Windows"
      /\ platform_system w <> lit "Linux"
      /\ choose_target w t l
         = Stop (SysExit (-1))
             {| printed := printed l ++ [lit "Unsupported platform: " ++ platform_system w];
                packed := packed l; header := header l |}).
Proof. exact (choose_target_cases w t l). Qed.

Lemma run_packer_stops (w : World) (a : Args) (files : list str)
    (entryPointFile : str) (s : Status) (l : Log) :
  freshness_gate w empty_log = Ret (a, files, entryPointFile) empty_log ->
  packer_enabled (slangc a) entryPointFile = true ->
  binary_packer w a entryPointFile empty_log = Stop s l ->
  run w = (s, l).
Proof.
  intros G E K. unfold run, main. unfold bind at 1. rewrite G, E.
  unfold bind at 1. rewrite K. reflexivity.
Qed.

(** When the compiler returns a non-zero status and its error output
    decodes, the run prints what it was compiling, the failure and that
    output, and exits with status -1: neither header is written and no file
    is minified (lines 104-108). *)
Theorem compiler_failure (w : World) (a : Args) (files : list str)
    (entryPointFile t : str) (returncode : Z) (stderr : str) :
  freshness_gate w empty_log = Ret (a, files, entryPointFile) empty_log ->
  packer_enabled (slangc a) entryPointFile = true ->
  choose_target w (target a) empty_log = Ret t empty_log ->
  subprocess_run w (cmd (compile_job (os_path w) a entryPointFile t))
  = Some (returncode, Some stderr) ->
  returncode <> 0%Z ->
  run w
  = (SysExit (-1),
     {| printed :=
          [announcement (compile_job (os_path w) a entryPointFile t);
           lit "Compliation failed on " ++ entryPointFile;
           stderr];
        packed := None; header := None |}).
Proof.
  intros G E T S R. apply (run_packer_stops w a files entryPointFile _ _ G E).
  unfold binary_packer. unfold bind at 1. rewrite T.
  unfold bind at 1. unfold print at 1. rewrite S.
  apply Z.eqb_neq in R. rewrite R. reflexivity.
Qed.

Lemma compiler_failure_witness :
  run Sample.failing_compiler
  = (SysExit (-1),
     {| printed :=
          [announce Sample.entry (lit "slangc") (lit "SPIRV") (lit "out/MainEntryPoints.h");
           lit "Compliation failed on shaders/MainEntryPoints.slang";
           lit "error: syntax"];
        packed := None; header := None |}).
Proof.
  exact (compiler_failure Sample.failing_compiler
           (parse_args Posix.path Sample.args4) [Sample.foo; Sample.entry]
           Sample.entry (lit "spirv") 1%Z (lit "error: syntax")
           eq_refl eq_refl eq_refl eq_refl ltac:(discriminate)).
Defined.

(** When the compiler returns a non-zero status and its error output is
    not valid text, [result.stderr.decode()] raises after the failure line
    is printed: the run dies with that exception instead of exiting with
    status -1 (line 107). *)
Theorem compiler_failure_undecodable (w : World) (a : Args) (files : list str)
    (entryPointFile t : str) (returncode : Z) :
  freshness_gate w empty_log = Ret (a, files, entryPointFile) empty_log ->
  packer_enabled (slangc a) entryPointFile = true ->
  choose_target w (target a) empty_log = Ret t empty_log ->
  subprocess_run w (cmd (compile_job (os_path w) a entryPointFile t))
  = Some (returncode, None) ->
  returncode <> 0%Z ->
  run w
  = (Uncaught UnicodeDecodeError,
     {| printed :=
          [announcement (compile_job (os_path w) a entryPointFile t);
           lit "Compliation failed on " ++ entryPointFile];
        packed := None; header := None |}).
Proof.
  intros G E T S R. apply (run_packer_stops w a files entryPointFile _ _ G E).
  unfold binary_packer. unfold bind at 1. rewrite T.
  unfold bind at 1. unfold print at 1. rewrite S.
  apply Z.eqb_neq in R. rewrite R. reflexivity.
Qed.

Lemma compiler_failure_undecodable_witness :
  run Sample.garbled_compiler
  = (Uncaught UnicodeDecodeError,
     {| printed :=
          [announce Sample.entry (lit "slangc") (lit "SPIRV") (lit "out/MainEntryPoints.h");
           lit "Compliation failed on shaders/MainEntryPoints.slang"];
        packed := None; header := None |}).
Proof.
  exact (compiler_failure_undecodable Sample.garbled_compiler
           (parse_args Posix.path Sample.args4) [Sample.foo; Sample.entry]
           Sample.entry (lit "spirv") 1%Z
           eq_refl eq_refl eq_refl eq_refl ltac:(discriminate)).
Defined.

(** If the binary packer comes back, the compiler returned 0, the file it
    left has a multiple of four bytes, and the text written to the path of
    the compile job declares and lists exactly a quarter as many words; one
    line was printed (lines 64-123). *)
Theorem binary_packer_success (w : World) (a : Args) (entryPointFile : str)
    (l l' : Log) :
  binary_packer w a entryPointFile l = Ret tt l' ->
  exists t stderr data,
    choose_target w (target a) l = Ret t l
    /\ subprocess_run w (cmd (compile_job (os_path w) a entryPointFile t))
       = Some (0%Z, stderr)
    /\ read_bytes w (compiledTempFile (compile_job (os_path w) a entryPointFile t))
       = Some data
    /\ length data mod 4 = 0
    /\ packed l'
       = Some (compiledFile (compile_job (os_path w) a entryPointFile t),
               array_declaration (length data / 4)
                 (variableName (compile_job (os_path w) a entryPointFile t))
               ++ concat (map (fun i => word_token (length data / 4) i (swapped_word data i))
                            (seq 0 (length data / 4)))
               ++ lit "};" ++ [NL])
    /\ printed l'
       = printed l ++ [announcement (compile_job (os_path w) a entryPointFile t)].
Proof.
  unfold binary_packer. unfold bind at 1.
  destruct (choose_target_cases w (target a) l)
    as [[_ T]|[[_ T]|[[_ T]|[_ [_ [_ T]]]]]]; rewrite T; try discriminate;
    unfold bind at 1; unfold print at 1;
    match goal with
    | |- context [compile_job ?P a entryPointFile ?t] =>
        set (job := compile_job P a entryPointFile t)
    end;
    (destruct (subprocess_run w (cmd job)) as [[rc err]|] eqn:S; [|discriminate]);
    (destruct (Z.eqb_spec rc 0) as [->|_]; cbn [negb];
      [|unfold bind, print; destruct err; discriminate]);
    (destruct (read_bytes w (compiledTempFile job)) as [data|] eqn:B; [|discriminate]);
    (destruct (Nat.eq_dec (length data mod 4) 0) as [M|M];
      [|rewrite (pack_words_raises (variableName job) data M); discriminate]);
    assert (Hlen : length data = 4 * (length data / 4))
      by (pose proof (Nat.div_mod_eq (length data) 4); lia);
    rewrite (pack_words_closed (variableName job) data (length data / 4) Hlen);
    (destruct (open_write w (compiledFile job)); [|discriminate]);
    unfold write_packed; intros H; injection H as <-;
    eexists _, err, data; repeat split; eassumption || reflexivity.
Qed.

Lemma binary_packer_success_witness :
  exists l' text,
    binary_packer (Sample.with_compiler Sample.args4 Sample.linux
                     [x01; x02; x03; x04; x05; x06; x07; xff])
      (parse_args Posix.path Sample.args4) Sample.entry empty_log = Ret tt l'
    /\ packed l' = Some (lit "out/MainEntryPoints.h", text).
Proof.
  eexists. eexists. split; [vm_compute; reflexivity|].
  destruct (binary_packer_success
              (Sample.with_compiler Sample.args4 Sample.linux
                 [x01; x02; x03; x04; x05; x06; x07; xff])
              (parse_args Posix.path Sample.args4) Sample.entry empty_log
              _ ltac:(vm_compute; reflexivity))
    as [t [err [data [T [_ [_ [_ [P _]]]]]]]].
  vm_compute in T. injection T as <-. reflexivity.
Defined.

(** ** Failures of the minifier *)

Lemma reaches_minifier_header (w : World) (a : Args) (files : list str) (l : Log) :
  reaches_minifier w a files l -> header l = None.
Proof.
  intros [e [l0 [G K]]].
  apply freshness_gate_ret in G as [_ [_ ->]].
  destruct (packer_enabled (slangc a) e).
  - pose proof (header_binary_packer w a e empty_log) as H.
    rewrite K in H. exact H.
  - unfold ret in K. now injection K as <-.
Qed.

(** When the output header cannot be opened for writing, the run says so
    and exits with status -1 before reading any input; the header is not
    written (lines 126-133). *)
Theorem output_open_failure (w : World) (a : Args) (files : list str) (l : Log) :
  reaches_minifier w a files l ->
  open_write w (outputFile a) = false ->
  run w
  = (SysExit (-1),
     {| printed :=
          printed l
          ++ [lit "Minifying " ++ str_of_nat (length files) ++ lit " files from "
              ++ hlslFolder a;
              lit "Failed to open output header: " ++ outputFile a];
        packed := packed l; header := None |}).
Proof.
  intros Hreach Hopen.
  rewrite (run_reaches_minifier w a files l Hreach).
  pose proof (reaches_minifier_header w a files l Hreach) as Hh.
  unfold minifier. rewrite Hopen.
  unfold bind, print, sys_exit. cbn [printed packed header].
  rewrite Hh, <- app_assoc. reflexivity.
Qed.

Lemma output_open_failure_witness :
  run Sample.read_only
  = (SysExit (-1),
     {| printed :=
          [lit "Minifying 1 files from shaders";
           lit "Failed to open output header: out/Shaders.h"];
        packed := None; header := None |}).
Proof.
  exact (output_open_failure Sample.read_only
           (parse_args Posix.path Sample.args3) [Sample.foo] empty_log
           (ex_intro _ [] (ex_intro _ empty_log (conj eq_refl eq_refl)))
           eq_refl).
Defined.

Lemma minify_files_stop (w : World) (numFiles : nat) (before : list str)
    (f : str) (after : list str) (n : nat) (directoryString : str) (l : Log) :
  Forall (fun g => read_text w g <> None) before ->
  read_text w f = None ->
  minify_files w numFiles (before ++ f :: after) n directoryString l
  = Stop (SysExit (-1))
      {| printed :=
           printed l ++ file_messages (os_path w) numFiles n before
           ++ [minifying_message (n + length before) numFiles f;
               lit "Failed to open: " ++ f];
         packed := packed l;
         header := option_map (fun h => h ++ concat (map (file_section w) before))
                     (header l) |}.
Proof.
  intros Hread Hf. revert n directoryString l.
  induction Hread as [|g before Hg _ IH]; intros n d l.
  - cbn [app minify_files]. unfold bind at 1. unfold minify_file.
    rewrite Hf. unfold bind, print, sys_exit.
    cbn [printed packed header file_messages length map concat app].
    rewrite Nat.add_0_r, <- app_assoc.
    destruct (header l); cbn [option_map]; now rewrite ?app_nil_r.
  - cbn [app minify_files]. unfold bind at 1.
    destruct (read_text w g) as [text|] eqn:E; [|congruence].
    rewrite (minify_file_closed w numFiles g n d l text E). cbn [fst snd].
    rewrite IH. cbn [printed packed header length map concat file_messages].
    f_equal. f_equal.
    + replace (n + 1 + length before) with (n + S (length before)) by lia.
      rewrite ?app_nil_r. cbn [app]. rewrite <- ?app_assoc. cbn [app].
      rewrite <- ?app_assoc. reflexivity.
    + destruct (header l); cbn [option_map]; [|reflexivity].
      now rewrite <- app_assoc.
Qed.

(** When an input cannot be opened for reading, the run names it and exits
    with status -1 at once.  The header then holds its head and the string
    constants of the files before it, and nothing else: the later files,
    the directory table and the closing brace of the namespace are missing
    (lines 145-156). *)
Theorem input_open_failure (w : World) (a : Args) (before : list str) (f : str)
    (after : list str) (l : Log) :
  reaches_minifier w a (before ++ f :: after) l ->
  open_write w (outputFile a) = true ->
  Forall (fun g => read_text w g <> None) before ->
  read_text w f = None ->
  let numFiles := length (before ++ f :: after) in
  run w
  = (SysExit (-1),
     {| printed :=
          printed l
          ++ (lit "Minifying " ++ str_of_nat numFiles ++ lit " files from "
              ++ hlslFolder a)
          :: file_messages (os_path w) numFiles 0 before
          ++ [minifying_message (length before) numFiles f;
              lit "Failed to open: " ++ f];
        packed := packed l;
        header := Some (header_head w a numFiles
                        ++ concat (map (file_section w) before)) |}).
Proof.
  intros Hreach Hopen Hread Hf numFiles.
  rewrite (run_reaches_minifier w a _ l Hreach).
  unfold minifier. rewrite Hopen. fold numFiles.
  unfold bind at 1. unfold print at 1.
  unfold bind at 1. unfold open_header at 1.
  unfold bind at 1. unfold write_header at 1.
  unfold bind at 1.
  rewrite (minify_files_stop w numFiles before f after 0 _ _ Hread Hf).
  cbn [printed packed header option_map app Nat.add].
  rewrite <- app_assoc. reflexivity.
Qed.

Lemma input_open_failure_witness :
  exists l,
    run Sample.locked = (SysExit (-1), l)
    /\ header l
       = Some (header_head Sample.locked (parse_args Posix.path Sample.args3) 3
               ++ file_section Sample.locked Sample.foo).
Proof.
  eexists. split.
  - apply (input_open_failure Sample.locked
             (parse_args Posix.path Sample.args3) [Sample.foo] Sample.ghost
             [Sample.bar] empty_log).
    + exists [], empty_log. split; vm_compute; reflexivity.
    + reflexivity.
    + constructor; [vm_compute; discriminate | constructor].
    + reflexivity.
  - cbn [header map concat]. now rewrite app_nil_r.
Defined.

(** ** When the secondary header is written *)

Lemma scan_files_some (w : World) (name : str) (t : float) (files : list str)
    (r0 : bool) (e0 : str) (p : bool * str) :
  scan_files w name t files r0 e0 = Some p ->
  Forall (fun f => stat_mtime w f <> None) files.
Proof.
  revert r0 e0. induction files as [|f files IH]; intros r0 e0 H; [constructor|].
  cbn [scan_files] in H. destruct (stat_mtime w f) eqn:E; [|discriminate].
  constructor; [congruence | exact (IH _ _ H)].
Qed.

Lemma freshness_gate_entry (w : World) (l l' : Log) (a : Args) (files : list str)
    (entryPointFile : str) :
  freshness_gate w l = Ret (a, files, entryPointFile) l' ->
  entryPointFile = last (filter (str_in (mainEntryPoint a)) files) [].
Proof.
  intros G. pose proof G as G'.
  apply freshness_gate_ret in G' as [-> [Hf ->]].
  unfold freshness_gate in G. cbv zeta in G.
  destruct ((length (argv w) <? 3) || (6 <? length (argv w))).
  - unfold bind in G. destruct (print_all usage l); discriminate.
  - rewrite <- Hf in G.
    destruct (scan_files _ _ _ files false []) as [[r e]|] eqn:S; [|discriminate].
    pose proof (scan_files_some _ _ _ _ _ _ _ S) as Hstat.
    rewrite (scan_files_closed w _ _ files false [] Hstat) in S.
    injection S as _ <-.
    destruct r; cbn [negb] in G; [|discriminate].
    unfold ret in G. now injection G as <-.
Qed.

Lemma last_in {A} (l : list A) (d : A) : l <> [] -> In (last l d) l.
Proof.
  induction l as [|x l IH]; intros H; [congruence|].
  destruct l as [|y l]; [now left|].
  right. apply IH. discriminate.
Qed.

(** The secondary header is written only by a run with exactly four
    arguments, the last a non-empty compiler path, in which some file's
    path contains [MainEntryPoints]: with a fifth or sixth argument no
    compiler runs, so the entry point that is compiled always bears the
    default name (lines 27-35, 51-54 and 64-65). *)
Theorem secondary_header_needs_four_args (w : World) (p : str * str) :
  packed (snd (run w)) = Some p ->
  length (argv w) = 4
  /\ arg (argv w) 3 <> []
  /\ exists f before after,
       In f (glob_glob w (glob_pattern (arg (argv w) 1)))
       /\ f = before ++ lit "MainEntryPoints" ++ after.
Proof.
  unfold run, main. unfold bind at 1.
  pose proof (keeps_freshness_gate w empty_log) as KG.
  destruct (freshness_gate w empty_log) as [[[a files] e] l0|s l0] eqn:G;
    cbn [log_of] in KG.
  2:{ cbn [snd]. rewrite KG. discriminate. }
  pose proof (freshness_gate_entry w _ _ _ _ _ G) as He.
  apply freshness_gate_ret in G as [Ha [Hf ->]].
  destruct (packer_enabled (slangc a) e) eqn:E.
  - intros _. unfold packer_enabled in E. apply andb_true_iff in E as [Es Ee].
    apply Nat.ltb_lt in Es, Ee.
    assert (Hargc : length (argv w) = 4).
    { destruct (Nat.eq_dec (length (argv w)) 4) as [H|H]; [exact H|].
      exfalso. apply Nat.eqb_neq in H. subst a. unfold parse_args in Es.
      cbn [slangc] in Es. rewrite H in Es. cbn in Es. lia. }
    assert (Hs : slangc a = arg (argv w) 3).
    { subst a. unfold parse_args. cbn [slangc]. now rewrite Hargc. }
    assert (Hm : mainEntryPoint a = lit "MainEntryPoints").
    { subst a. unfold parse_args. cbn [mainEntryPoint]. now rewrite Hargc. }
    assert (Hh : hlslFolder a = arg (argv w) 1) by now subst a.
    split; [exact Hargc|]. split.
    + rewrite <- Hs. intros F. rewrite F in Es. cbn in Es. lia.
    + rewrite Hm in He. rewrite Hh in Hf.
      assert (Hin : In e (filter (str_in (lit "MainEntryPoints")) files)).
      { rewrite He. apply last_in. intros F. rewrite F in He. cbn in He.
        rewrite He in Ee. cbn in Ee. lia. }
      apply filter_In in Hin as [Hin Hsub].
      apply str_in_spec in Hsub as [before [after Hsub]].
      exists e, before, after. rewrite <- Hf. now split.
  - unfold bind at 1. unfold ret at 1.
    pose proof (keeps_minifier w a files empty_log) as KM.
    destruct (minifier w a files empty_log); cbn [log_of snd] in *;
      rewrite KM; discriminate.
Qed.

Lemma secondary_header_needs_four_args_witness :
  length (argv (Sample.with_compiler Sample.args4 Sample.linux
                  [x01; x02; x03; x04])) = 4.
Proof.
  destruct (secondary_header_needs_four_args
              (Sample.with_compiler Sample.args4 Sample.linux [x01; x02; x03; x04])
              (lit "out/MainEntryPoints.h",
               lit "static const array<unsigned int, 1> g_sMainEntryPointsSPIRV = {"
               ++ [NL] ++ lit "0x04030201};" ++ [NL]))
    as [H _].
  - vm_compute. reflexivity.
  - exact H.
Defined.

(** ** Exit status 0 *)

Section NeverExitsZero.

Lemma nez_ret {A} (a : A) : never_exits_zero (ret a).
Proof. intros l s l' H. discriminate. Qed.

Lemma nez_bind {A B} (m : Script A) (k : A -> Script B) :
  never_exits_zero m -> (forall a, never_exits_zero (k a)) ->
  never_exits_zero (bind m k).
Proof.
  intros Hm Hk l s l' H. unfold bind in H.
  destruct (m l) as [a l1|s1 l1] eqn:E.
  - exact (Hk a l1 s l' H).
  - injection H as <- <-. exact (Hm l s1 l1 E).
Qed.

Lemma nez_print (s : str) : never_exits_zero (print s).
Proof. intros l s' l' H. discriminate. Qed.

Lemma nez_sys_exit {A} (code : Z) : code <> 0%Z -> never_exits_zero (@sys_exit A code).
Proof. intros Hc l s l' H. injection H as <- _. congruence. Qed.

Lemma nez_raise {A} (e : Exn) : never_exits_zero (@raise A e).
Proof. intros l s l' H. injection H as <- _. discriminate. Qed.

Lemma nez_write_header (s : str) : never_exits_zero (write_header s).
Proof. intros l s' l' H. discriminate. Qed.

Lemma nez_open_header : never_exits_zero open_header.
Proof. intros l s l' H. discriminate. Qed.

Lemma nez_write_packed (path text : str) : never_exits_zero (write_packed path text).
Proof. intros l s l' H. discriminate. Qed.

Lemma nez_minus_one {A} : never_exits_zero (@sys_exit A (-1)).
Proof. apply nez_sys_exit. discriminate. Qed.

Create HintDb nez.
#[local] Hint Resolve nez_ret nez_print nez_minus_one nez_raise nez_write_header
  nez_open_header nez_write_packed : nez.

Ltac nez :=
  repeat first
    [ apply nez_bind; [|intros ?]
    | match goal with
      | |- never_exits_zero (if ?b then _ else _) => destruct b
      | |- never_exits_zero (match ?x with _ => _ end) => destruct x
      end
    | solve [auto with nez] ].

Lemma nez_choose_target (w : World) (t : str) : never_exits_zero (choose_target w t).
Proof. unfold choose_target. nez. Qed.

Lemma nez_binary_packer (w : World) (a : Args) (entryPointFile : str) :
  never_exits_zero (binary_packer w a entryPointFile).
Proof.
  unfold binary_packer. pose proof (nez_choose_target w (target a)). nez.
Qed.

Lemma nez_minify_file (w : World) (numFiles : nat) (hlslFile : str)
    (n : nat) (directoryString : str) :
  never_exits_zero (minify_file w numFiles hlslFile n directoryString).
Proof. unfold minify_file. nez. Qed.

Lemma nez_minify_files (w : World) (numFiles : nat) (files : list str)
    (n : nat) (directoryString : str) :
  never_exits_zero (minify_files w numFiles files n directoryString).
Proof.
  revert n directoryString.
  induction files as [|f files IH]; intros n d; cbn [minify_files].
  - apply nez_ret.
  - apply nez_bind; [apply nez_minify_file | intros r; apply IH].
Qed.

Lemma nez_minifier (w : World) (a : Args) (files : list str) :
  never_exits_zero (minifier w a files).
Proof. unfold minifier. pose proof nez_minify_files. nez. Qed.

End NeverExitsZero.

Lemma print_all_returns (ls : list str) (l : Log) :
  print_all ls l
  = Ret tt {| printed := printed l ++ ls; packed := packed l; header := header l |}.
Proof.
  revert l. induction ls as [|s ls IH]; intros l.
  - unfold print_all, ret. rewrite app_nil_r. now destruct l.
  - cbn [print_all]. unfold bind, print. rewrite IH.
    cbn [printed packed header]. now rewrite <- app_assoc.
Qed.

(** A run ends by [sys.exit(0)] only at the early out of line 62: it has
    then printed the up-to-date message and nothing else, and written no
    file.  Every later [sys.exit] has status -1. *)
Theorem exit_zero_is_up_to_date (w : World) :
  fst (run w) = SysExit 0 ->
  snd (run w)
  = {| printed := [up_to_date_message (outputFile (parse_args (os_path w) (argv w)))];
       packed := None; header := None |}.
Proof.
  unfold run, main. unfold bind at 1.
  destruct (freshness_gate w empty_log) as [[[a files] e] l0|s l0] eqn:G.
  - intros H. exfalso.
    destruct (bind _ _ l0) as [u l1|s l1] eqn:K; [discriminate H|].
    cbn [fst] in H. subst s.
    assert (N : never_exits_zero
                  ((if packer_enabled (slangc a) e
                    then binary_packer w a e else ret tt) ;;
                   minifier w a files)).
    { apply nez_bind; [|intros _; apply nez_minifier].
      destruct (packer_enabled (slangc a) e);
        [apply nez_binary_packer | apply nez_ret]. }
    exact (N l0 (SysExit 0) l1 K eq_refl).
  - cbn [fst snd]. intros ->. revert G. unfold freshness_gate.
    destruct ((length (argv w) <? 3) || (6 <? length (argv w))).
    + unfold bind. rewrite print_all_returns. discriminate.
    + cbv zeta. destruct (scan_files _ _ _ _ _ _) as [[r e]|]; [|discriminate].
      destruct r; cbn [negb]; [discriminate|].
      unfold bind, print, sys_exit. now intros H; injection H as <-.
Qed.

Lemma exit_zero_is_up_to_date_witness :
  snd (run Sample.fresh)
  = {| printed := [up_to_date_message (lit "out/Shaders.h")];
       packed := None; header := None |}.
Proof.
  apply (exit_zero_is_up_to_date Sample.fresh). vm_compute. reflexivity.
Defined.

(** ** Two files with one name *)

Lemma file_messages_progress (P : OsPath) (numFiles n : nat) (files : list str) :
  Forall (fun f => stringName P f <> directorySymbolName) files ->
  file_messages P numFiles n files = progress_messages numFiles n files.
Proof.
  intros H. revert n. induction H as [|f files Hf _ IH]; intros n; [reflexivity|].
  cbn [file_messages progress_messages].
  apply str_eqb_neq in Hf. rewrite Hf, IH. reflexivity.
Qed.

(** The only name the script checks is the directory table's own: when no
    file is named after it, the run prints its progress lines and nothing
    else, also when two files give the same constant name, and the header
    is written with one constant per file all the same (lines 162-170). *)
Theorem clash_between_files_unreported (w : World) (a : Args) (files : list str)
    (l : Log) :
  reaches_minifier w a files l ->
  open_write w (outputFile a) = true ->
  Forall (fun f => read_text w f <> None) files ->
  Forall (fun f => stringName (os_path w) f <> directorySymbolName) files ->
  exists l',
    run w = (Finished, l')
    /\ printed l'
       = printed l
         ++ (lit "Minifying " ++ str_of_nat (length files) ++ lit " files from "
             ++ hlslFolder a)
         :: progress_messages (length files) 0 files
    /\ header l'
       = Some (header_head w a (length files)
               ++ concat (map (file_section w) files)
               ++ directory_head
               ++ directory_entries (directory_entry (os_path w)) files
               ++ lit "}" ++ [NL]).
Proof.
  intros Hreach Hopen Hread Hnames. eexists. split; [|split].
  - rewrite (run_reaches_minifier w a files l Hreach),
      (minifier_closed w a files l Hopen Hread). reflexivity.
  - cbn [printed]. now rewrite (file_messages_progress _ _ _ _ Hnames).
  - reflexivity.
Qed.

Lemma clash_between_files_unreported_witness :
  stringName Posix.path Sample.foo = stringName Posix.path Sample.twin
  /\ exists l',
       run Sample.twins = (Finished, l')
       /\ printed l'
          = [lit "Minifying 2 files from shaders";
             minifying_message 0 2 Sample.foo; minifying_message 1 2 Sample.twin].
Proof.
  split; [reflexivity|].
  destruct (clash_between_files_unreported Sample.twins
              (parse_args Posix.path Sample.args3) [Sample.foo; Sample.twin]
              empty_log)
    as [l' [R [Hp _]]].
  - exists [], empty_log. split; vm_compute; reflexivity.
  - reflexivity.
  - repeat constructor; vm_compute; discriminate.
  - repeat constructor; vm_compute; discriminate.
  - exists l'. split; [exact R | exact Hp].
Defined.

(** ** Lines without a comment *)

Lemma match_comment_no_slashes (s : str) :
  startswith [SLASH; SLASH] s = false -> match_comment s = None.
Proof.
  destruct s as [|a [|b s]]; try reflexivity.
  cbn [startswith match_comment]. rewrite andb_true_r.
  rewrite (N.eqb_sym SLASH a), (N.eqb_sym SLASH b). now intros ->.
Qed.

(** A text in which no double slash occurs goes through line 182
    unchanged; in particular a comment between slash-star and star-slash
    stays in the string constant. *)
Theorem strip_comment_without_slashes (ln : str) :
  str_in [SLASH; SLASH] ln = false -> strip_comment ln = ln.
Proof.
  unfold strip_comment, re_sub. induction ln as [|c ln IH]; intros H; [reflexivity|].
  change (str_in [SLASH; SLASH] (c :: ln))
    with (startswith [SLASH; SLASH] (c :: ln) || str_in [SLASH; SLASH] ln) in H.
  apply orb_false_iff in H as [Hstart Hrest].
  cbn [sub_go]. rewrite (match_comment_no_slashes _ Hstart), (IH Hrest).
  reflexivity.
Qed.

Lemma strip_comment_without_slashes_witness :
  strip_comment (lit "/* note */ float x = 1.0 / 2.0;" ++ [NL])
  = lit "/* note */ float x = 1.0 / 2.0;" ++ [NL].
Proof. apply strip_comment_without_slashes. reflexivity. Defined.

Lemma minify_commented_line_witness :
  minify_line ([SLASH; SLASH] ++ lit " comment" ++ [NL]) = [BS; LETTER_n].
Proof.
  apply minify_commented_line.
  intros H. vm_compute in H.
  repeat (destruct H as [H|H]; [discriminate H|]). exact H.
Defined.

(** * The transform against the spec's words *)

(** ** Comment stripping of a line *)

Lemma sub_comment_no_newline (ln : str) :
  ~ In NL ln -> re_sub match_comment [NL] ln = ln.
Proof.
  unfold re_sub. induction ln as [|c ln IH]; intros H; [reflexivity|].
  cbn [sub_go]. rewrite match_comment_none by exact H.
  rewrite IH; [reflexivity | intros H'; apply H; now right].
Qed.

Lemma startswith_slashes_snoc (c : char) (s : str) :
  startswith [SLASH; SLASH] (c :: s) = false ->
  startswith [SLASH; SLASH] ((c :: s) ++ [NL]) = false.
Proof.
  destruct s as [|d s]; cbn [app startswith].
  - intros _. destruct (N.eqb SLASH c); reflexivity.
  - exact (fun H => H).
Qed.

(** On a terminated line the substitution of line 182 does what the spec
    says: the text before the first double slash stays, and the line feed. *)
Lemma sub_comment_line (body : str) :
  ~ In NL body ->
  re_sub match_comment [NL] (body ++ [NL]) = before_comment body ++ [NL].
Proof.
  intros Hnl. induction body as [|c body IH]; [reflexivity|].
  cbn [before_comment]. destruct (startswith [SLASH; SLASH] (c :: body)) eqn:E.
  - apply startswith_spec in E as [rest E]. rewrite E in Hnl |- *.
    apply (sub_comment_terminated [] rest eq_refl (fun F => F)).
    intros H. apply Hnl. now right; right.
  - unfold re_sub. change ((c :: body) ++ [NL]) with (c :: (body ++ [NL])).
    cbn [sub_go].
    pose proof (startswith_slashes_snoc c body E) as E'.
    change ((c :: body) ++ [NL]) with (c :: (body ++ [NL])) in E'.
    rewrite (match_comment_no_slashes _ E'). cbn [app]. f_equal.
    apply IH. intros H. apply Hnl. now right.
Qed.

Lemma comment_stripped_terminated (body : str) :
  comment_stripped (body ++ [NL]) = before_comment body ++ [NL].
Proof.
  unfold comment_stripped.
  now rewrite ends_with_newline_snoc, N.eqb_refl, removelast_last.
Qed.

(** Round trip for a terminated line: reading the three escapes back gives
    exactly the spec's comment-stripped, whitespace-collapsed form of the
    line (lines 182-190). *)
Theorem unescape_minify_terminated (body : str) :
  ~ In NL body ->
  unescape (minify_line (body ++ [NL]))
  = whitespace_collapsed (comment_stripped (body ++ [NL])).
Proof.
  intros H. rewrite minify_line_escape, unescape_escape.
  rewrite collapse_whitespace_squeeze. unfold strip_comment, whitespace_collapsed.
  now rewrite (sub_comment_line body H), comment_stripped_terminated.
Qed.

Lemma unescape_minify_terminated_witness :
  unescape (minify_line (lit "float	x;  // c" ++ [NL])) = lit "float x; " ++ [NL].
Proof.
  rewrite unescape_minify_terminated.
  - vm_compute. reflexivity.
  - intros H. vm_compute in H.
    repeat (destruct H as [H|H]; [discriminate H|]). exact H.
Defined.

(** C2. On a line without terminator the round trip gives the line with its
    whitespace collapsed and its comment still there: the result is not the
    comment-stripped form that the claim (and the comment of line 181)
    announces. *)
Theorem unescape_minify_unterminated (ln : str) :
  ~ In NL ln -> unescape (minify_line ln) = whitespace_collapsed ln.
Proof.
  intros H. rewrite minify_line_escape, unescape_escape.
  rewrite collapse_whitespace_squeeze. unfold strip_comment, whitespace_collapsed.
  now rewrite (sub_comment_no_newline ln H).
Qed.

Lemma unescape_minify_unterminated_witness :
  unescape (minify_line (lit "float x; // c")) = lit "float x; // c"
  /\ whitespace_collapsed (comment_stripped (lit "float x; // c")) = lit "float x; ".
Proof.
  split; [|vm_compute; reflexivity].
  rewrite unescape_minify_unterminated.
  - vm_compute. reflexivity.
  - intros H. vm_compute in H.
    repeat (destruct H as [H|H]; [discriminate H|]). exact H.
Defined.

(** ** Backslash-n pairs *)

Lemma pairs_cons (c : char) (s : str) :
  backslash_n_pairs (c :: s)
  = (if N.eqb c BS && starts_with_n s then 1 else 0) + backslash_n_pairs s.
Proof. reflexivity. Qed.

Lemma starts_with_n_escape (u rest : str) :
  starts_with_n (flat_map escape_char u ++ rest)
  = match u with
    | [] => starts_with_n rest
    | c :: _ => N.eqb c LETTER_n
    end.
Proof.
  destruct u as [|c u]; [reflexivity|].
  cbn [flat_map]. unfold escape_char.
  destruct (N.eqb_spec c BS) as [->|H1]; [reflexivity|].
  destruct (N.eqb_spec c NL) as [->|H2]; [reflexivity|].
  destruct (N.eqb_spec c DQ) as [->|H3]; reflexivity.
Qed.

(** The pairs of an escaped text: one for each line feed of the text, and
    one for each backslash that the text itself has before an n. *)
Lemma pairs_escape (u rest : str) :
  starts_with_n rest = false ->
  backslash_n_pairs (flat_map escape_char u ++ rest)
  = count_newlines u + backslash_n_pairs u + backslash_n_pairs rest.
Proof.
  intros Hrest. induction u as [|c u IH]; [reflexivity|].
  cbn [flat_map]. rewrite <- app_assoc, count_newlines_cons, pairs_cons.
  pose proof (starts_with_n_escape u rest) as Hd.
  assert (Hn : starts_with_n (flat_map escape_char u ++ rest) = starts_with_n u).
  { rewrite Hd. destruct u; [exact Hrest | reflexivity]. }
  unfold escape_char at 1.
  destruct (N.eqb_spec c BS) as [->|H1].
  { cbn [app]. rewrite !pairs_cons, IH, Hn. cbn. lia. }
  destruct (N.eqb_spec c NL) as [->|H2].
  { cbn [app]. rewrite !pairs_cons, IH. cbn. lia. }
  destruct (N.eqb_spec c DQ) as [->|H3].
  { cbn [app]. rewrite !pairs_cons, IH. cbn. lia. }
  cbn [app]. rewrite pairs_cons, IH.
  apply N.eqb_neq in H1. rewrite H1. cbn. lia.
Qed.

Lemma starts_with_n_squeeze (s : str) :
  starts_with_n (squeeze false s) = starts_with_n s.
Proof.
  destruct s as [|c s]; [reflexivity|]. cbn [squeeze].
  destruct (hspace c) eqn:Hc; [|reflexivity].
  cbn [app starts_with_n].
  destruct (N.eqb_spec c LETTER_n) as [->|_]; [discriminate Hc | reflexivity].
Qed.

Lemma hspace_not_backslash (c : char) : hspace c = true -> N.eqb c BS = false.
Proof.
  intros H. destruct (N.eqb_spec c BS) as [->|_]; [discriminate H | reflexivity].
Qed.

Lemma pairs_squeeze (b : bool) (s : str) :
  backslash_n_pairs (squeeze b s) = backslash_n_pairs s.
Proof.
  revert b. induction s as [|c s IH]; intros b; [reflexivity|].
  cbn [squeeze]. rewrite (pairs_cons c s). destruct (hspace c) eqn:Hc.
  - rewrite (hspace_not_backslash c Hc). cbn [andb Nat.add].
    destruct b; cbn [app]; [apply IH|].
    rewrite pairs_cons. cbn. apply IH.
  - rewrite pairs_cons, starts_with_n_squeeze, IH. reflexivity.
Qed.

Lemma starts_with_n_before_comment (s : str) :
  starts_with_n (before_comment s) = true -> starts_with_n s = true.
Proof.
  destruct s as [|c s]; [discriminate|]. cbn [before_comment].
  destruct (startswith [SLASH; SLASH] (c :: s)); [discriminate | exact (fun H => H)].
Qed.

Lemma pairs_before_comment (s : str) :
  backslash_n_pairs s = 0 -> backslash_n_pairs (before_comment s) = 0.
Proof.
  induction s as [|c s IH]; [reflexivity|]. rewrite pairs_cons. intros H.
  cbn [before_comment].
  destruct (startswith [SLASH; SLASH] (c :: s)); [reflexivity|].
  rewrite pairs_cons, IH by lia.
  destruct (N.eqb c BS); [|reflexivity]. cbn [andb] in H |- *.
  destruct (starts_with_n (before_comment s)) eqn:E; [|reflexivity].
  apply starts_with_n_before_comment in E. rewrite E in H. discriminate H.
Qed.

Lemma starts_with_n_snoc (x rest : str) :
  starts_with_n (x ++ NL :: rest) = starts_with_n x.
Proof. destruct x; reflexivity. Qed.

Lemma pairs_after_newline (x rest : str) :
  backslash_n_pairs ((x ++ [NL]) ++ rest)
  = backslash_n_pairs x + backslash_n_pairs rest.
Proof.
  induction x as [|c x IH]; [reflexivity|].
  change (((c :: x) ++ [NL]) ++ rest) with (c :: ((x ++ [NL]) ++ rest)).
  rewrite !pairs_cons, IH, <- app_assoc.
  change ([NL] ++ rest) with (NL :: rest). rewrite starts_with_n_snoc. lia.
Qed.

Lemma pairs_without_backslash (s : str) : ~ In BS s -> backslash_n_pairs s = 0.
Proof.
  induction s as [|c s IH]; intros H; [reflexivity|].
  rewrite pairs_cons, IH by (intros F; apply H; now right).
  destruct (N.eqb_spec c BS) as [->|_]; [|reflexivity].
  exfalso. apply H. now left.
Qed.

Lemma squeeze_snoc_newline (b : bool) (s : str) :
  squeeze b (s ++ [NL]) = squeeze b s ++ [NL].
Proof.
  revert b. induction s as [|c s IH]; intros b; [reflexivity|].
  cbn [app squeeze]. destruct (hspace c); rewrite IH.
  - now rewrite <- app_assoc.
  - reflexivity.
Qed.

(** ** The shape of the lines *)

Lemma ends_with_newline_split (ln : str) :
  ends_with_newline ln = true -> ln = removelast ln ++ [NL].
Proof.
  destruct ln as [|c ln] using rev_ind; [discriminate|].
  rewrite ends_with_newline_snoc, removelast_last. intros H.
  apply N.eqb_eq in H. now subst c.
Qed.

Lemma no_newline_unterminated (ln : str) :
  ~ In NL (removelast ln) -> ends_with_newline ln = false -> ~ In NL ln.
Proof.
  destruct ln as [|c ln] using rev_ind; [intros _ _ []|].
  rewrite ends_with_newline_snoc, removelast_last. intros H E F.
  apply in_app_or in F as [F|[F|[]]]; [now apply H|].
  subst c. discriminate E.
Qed.

(** Each line that [readlines] gives holds a line feed at its end at most,
    and every line but the last holds one. *)
Lemma splitlines_shape (cur s : str) :
  ~ In NL cur ->
  Forall (fun ln => ~ In NL (removelast ln)) (splitlines_keepends cur s)
  /\ Forall (fun ln => ends_with_newline ln = true)
       (removelast (splitlines_keepends cur s)).
Proof.
  revert cur. induction s as [|c s IH]; intros cur Hcur.
  - cbn [splitlines_keepends]. destruct cur as [|x cur]; [split; constructor|].
    split; [|constructor]. constructor; [|constructor].
    intros F. apply Hcur. revert F. generalize (x :: cur). intros l F.
    destruct l as [|y l] using rev_ind; [exact F|].
    rewrite removelast_last in F. apply in_or_app. now left.
  - cbn [splitlines_keepends]. destruct (N.eqb_spec c NL) as [->|Hc].
    + destruct (IH [] (fun F => F)) as [H1 H2]. split.
      * constructor; [now rewrite removelast_last | exact H1].
      * destruct (splitlines_keepends [] s) as [|l ls] eqn:E; [constructor|].
        change (removelast ((cur ++ [NL]) :: l :: ls))
          with ((cur ++ [NL]) :: removelast (l :: ls)).
        constructor; [|exact H2].
        now rewrite ends_with_newline_snoc.
    + apply IH. intros F. apply in_app_or in F as [F|[F|[]]]; [now apply Hcur|].
      now subst c.
Qed.

Lemma all_terminated (lines : list str) :
  Forall (fun ln => ends_with_newline ln = true) (removelast lines) ->
  last_line_terminated lines = true ->
  Forall (fun ln => ends_with_newline ln = true) lines.
Proof.
  intros H Hl. destruct lines as [|l ls]; [constructor|].
  rewrite (app_removelast_last [NL] (l := l :: ls)) by discriminate.
  apply Forall_app. split; [exact H|]. constructor; [exact Hl | constructor].
Qed.

Lemma line_directive_shape (hlslFile : str) :
  ~ In NL hlslFile ->
  ~ In NL (removelast (line_directive hlslFile))
  /\ ends_with_newline (line_directive hlslFile) = true
  /\ ~ In BS (line_directive hlslFile).
Proof.
  intros Hnl. unfold line_directive. rewrite re_sub_char.
  assert (Hp : forall c, c <> SLASH -> In c (replace_char BS [SLASH] hlslFile) ->
                         In c hlslFile /\ c <> BS).
  { intros c Hc. induction hlslFile as [|x p IH]; [intros []|].
    change (replace_char BS [SLASH] (x :: p))
      with ((if N.eqb x BS then [SLASH] else [x]) ++ replace_char BS [SLASH] p).
    intros F. apply in_app_or in F as [F|F].
    - destruct (N.eqb_spec x BS) as [->|Hx].
      + destruct F as [F|[]]. congruence.
      + destruct F as [F|[]]. subst x. split; [now left | exact Hx].
    - destruct (IH (fun G => Hnl (or_intror G)) F) as [G1 G2].
      split; [now right | exact G2]. }
  replace (lit "#line 1 " ++ [DQ] ++ replace_char BS [SLASH] hlslFile ++ [DQ; NL])
    with ((lit "#line 1 " ++ [DQ] ++ replace_char BS [SLASH] hlslFile ++ [DQ]) ++ [NL])
    by (rewrite <- !app_assoc; reflexivity).
  rewrite removelast_last, ends_with_newline_snoc. repeat split.
  - intros F. apply in_app_or in F as [F|F].
    { vm_compute in F. repeat (destruct F as [F|F]; [discriminate F|]). exact F. }
    apply in_app_or in F as [F|F]; [destruct F as [F|[]]; discriminate F|].
    apply in_app_or in F as [F|F]; [|destruct F as [F|[]]; discriminate F].
    apply Hnl. now apply (Hp NL ltac:(discriminate)).
  - intros F. apply in_app_or in F as [F|F]; [|destruct F as [F|[]]; discriminate F].
    apply in_app_or in F as [F|F].
    { vm_compute in F. repeat (destruct F as [F|F]; [discriminate F|]). exact F. }
    apply in_app_or in F as [F|F]; [destruct F as [F|[]]; discriminate F|].
    apply in_app_or in F as [F|F]; [|destruct F as [F|[]]; discriminate F].
    now apply (Hp BS ltac:(discriminate)) in F as [_ F].
Qed.

Lemma pairs_stripped_line (ln : str) :
  ~ In NL (removelast ln) -> backslash_n_pairs ln = 0 ->
  (ends_with_newline ln = true ->
   exists x, stripped_line ln = x ++ [NL] /\ backslash_n_pairs x = 0)
  /\ (ends_with_newline ln = false -> backslash_n_pairs (stripped_line ln) = 0).
Proof.
  intros Hnl Hp. unfold stripped_line, strip_comment.
  rewrite collapse_whitespace_squeeze. split; intros E.
  - pose proof (ends_with_newline_split ln E) as Hln.
    rewrite Hln, (sub_comment_line _ Hnl), squeeze_snoc_newline.
    eexists. split; [reflexivity|].
    rewrite pairs_squeeze. apply pairs_before_comment.
    rewrite Hln in Hp. rewrite <- (app_nil_r (removelast ln ++ [NL])) in Hp.
    rewrite pairs_after_newline in Hp. lia.
  - rewrite (sub_comment_no_newline ln (no_newline_unterminated ln Hnl E)).
    now rewrite pairs_squeeze.
Qed.

Lemma pairs_stripped_lines (lines : list str) :
  Forall (fun ln => ~ In NL (removelast ln)) lines ->
  Forall (fun ln => ends_with_newline ln = true) (removelast lines) ->
  Forall (fun ln => backslash_n_pairs ln = 0) lines ->
  backslash_n_pairs (concat (map stripped_line lines)) = 0.
Proof.
  induction lines as [|ln lines IH]; intros Hs He Hp; [reflexivity|].
  inversion Hs as [|? ? Hs1 Hs2]; subst. inversion Hp as [|? ? Hp1 Hp2]; subst.
  destruct (pairs_stripped_line ln Hs1 Hp1) as [Ht Hu].
  cbn [map concat]. destruct lines as [|l ls].
  - cbn [map concat]. rewrite app_nil_r.
    destruct (ends_with_newline ln) eqn:E; [|now apply Hu].
    destruct (Ht eq_refl) as [x [-> Hx]].
    rewrite <- (app_nil_r (x ++ [NL])), pairs_after_newline. cbn. lia.
  - change (removelast (ln :: l :: ls)) with (ln :: removelast (l :: ls)) in He.
    inversion He as [|? ? He1 He2]; subst.
    destruct (Ht He1) as [x [-> Hx]].
    rewrite pairs_after_newline, Hx. now apply IH.
Qed.

(** C3. For every input file whose path holds no line feed and whose lines
    hold no backslash directly followed by the letter n, the number of
    backslash-n pairs in the generated string constant is the number of
    original lines plus two - one for the prepended line statement, one
    appended after the last line - or plus one when the last line has no
    terminator; and a commented line that has its terminator is there as
    exactly one such pair: it collapses to an empty line and does not
    disappear. *)
Theorem backslash_n_count (hlslFile text : str) :
  count_newlines hlslFile = 0 ->
  Forall (fun ln => backslash_n_pairs ln = 0) (readlines text) ->
  backslash_n_pairs (string_constant hlslFile (readlines text))
  = length (readlines text)
    + (if last_line_terminated (readlines text) then 2 else 1)
  /\ forall before body after,
       readlines text = before ++ ([SLASH; SLASH] ++ body ++ [NL]) :: after ->
       string_constant hlslFile (readlines text)
       = concat (map minify_line (line_directive hlslFile :: before))
         ++ [BS; LETTER_n]
         ++ concat (map minify_line after) ++ [BS; LETTER_n].
Proof.
  intros Hpath Hpairs.
  assert (Hnl : ~ In NL hlslFile) by now apply count_newlines_zero.
  destruct (splitlines_shape [] (universal_newlines text) (fun F => F)) as [Hs He].
  fold (readlines text) in Hs, He.
  destruct (line_directive_shape hlslFile Hnl) as [Hd1 [Hd2 Hd3]].
  split.
  - rewrite string_constant_concat, concat_minify_lines.
    rewrite pairs_escape by reflexivity.
    rewrite count_collapsed_lines.
    change (fun ln => collapse_whitespace (strip_comment ln)) with stripped_line.
    rewrite pairs_stripped_lines.
    + cbn [concat]. rewrite count_newlines_app, count_line_directive, Hpath.
      unfold readlines. rewrite splitlines_concat. cbn [app].
      destruct (splitlines_length [] (universal_newlines text) eq_refl) as [H _].
      fold (readlines text) in H |- *.
      change (backslash_n_pairs [BS; LETTER_n]) with 1.
      unfold readlines in *. destruct (last_line_terminated _); lia.
    + now constructor.
    + destruct (readlines text) as [|l ls]; [constructor|].
      change (removelast (line_directive hlslFile :: l :: ls))
        with (line_directive hlslFile :: removelast (l :: ls)).
      now constructor.
    + constructor; [now apply pairs_without_backslash | exact Hpairs].
  - intros before body after Hsplit.
    assert (Hbody : ~ In NL body).
    { rewrite Hsplit in Hs. apply Forall_app in Hs as [_ Hs].
      inversion Hs as [|? ? H1 _]; subst.
      assert (E : removelast ([SLASH; SLASH] ++ body ++ [NL]) = SLASH :: SLASH :: body)
        by exact (removelast_last (SLASH :: SLASH :: body) NL).
      change (removelast (SLASH :: SLASH :: body ++ [NL]))
        with (removelast ([SLASH; SLASH] ++ body ++ [NL])) in H1.
      rewrite E in H1. intros F. apply H1. now right; right. }
    rewrite Hsplit, string_constant_concat.
    change (line_directive hlslFile :: before ++ ([SLASH; SLASH] ++ body ++ [NL]) :: after)
      with ((line_directive hlslFile :: before)
            ++ ([SLASH; SLASH] ++ body ++ [NL]) :: after).
    rewrite map_app, concat_app. cbn [map concat].
    rewrite (minify_comment_only body Hbody), <- !app_assoc. reflexivity.
Qed.

Lemma backslash_n_count_witness :
  backslash_n_pairs (string_constant Sample.foo (readlines Sample.foo_text)) = 4
  /\ string_constant Sample.foo (readlines Sample.foo_text)
     = minify_line (line_directive Sample.foo) ++ [BS; LETTER_n]
       ++ minify_line (lit "float x = 1.0;" ++ [NL]) ++ [BS; LETTER_n].
Proof.
  destruct (backslash_n_count Sample.foo Sample.foo_text) as [H1 H2].
  - reflexivity.
  - vm_compute. repeat constructor.
  - split; [rewrite H1; reflexivity|].
    rewrite (H2 [] (lit " comment") [lit "float x = 1.0;" ++ [NL]] eq_refl).
    cbn [map concat]. now rewrite !app_nil_r.
Defined.

(** A file of two lines gives four backslash-n pairs, not two. *)
Lemma backslash_n_pairs_not_line_count :
  backslash_n_pairs (string_constant Sample.foo (readlines Sample.foo_text))
  <> length (readlines Sample.foo_text).
Proof. vm_compute. discriminate. Qed.

(** A backslash before an n in the source gives one more pair: one line,
    four pairs. *)
Example backslash_n_in_source :
  backslash_n_pairs
    (string_constant Sample.foo (readlines (lit "a\nb" ++ [NL])))
  = 4
  /\ length (readlines (lit "a\nb" ++ [NL])) = 1.
Proof. split; reflexivity. Qed.

(** ** Round trip for a whole file *)

Lemma stripped_terminated (ln : str) :
  ends_with_newline ln = true -> ~ In NL (removelast ln) ->
  stripped_line ln = whitespace_collapsed (comment_stripped ln).
Proof.
  intros E Hnl. rewrite (ends_with_newline_split ln E).
  unfold stripped_line, strip_comment, whitespace_collapsed.
  now rewrite collapse_whitespace_squeeze, (sub_comment_line _ Hnl),
    comment_stripped_terminated.
Qed.

(** Round trip for a whole file that is empty or ends with a line feed:
    read back, the string constant is the line statement followed by the
    lines of the file, each in the spec's comment-stripped and
    whitespace-collapsed form, and one more line feed (lines 173-208); the
    cuts between the segments leave no trace. *)
Theorem unescape_string_constant (hlslFile text : str) :
  count_newlines hlslFile = 0 ->
  last_line_terminated (readlines text) = true ->
  unescape (string_constant hlslFile (readlines text))
  = concat (map (fun ln => whitespace_collapsed (comment_stripped ln))
              (line_directive hlslFile :: readlines text))
    ++ [NL].
Proof.
  intros Hpath Hlast.
  assert (Hnl : ~ In NL hlslFile) by now apply count_newlines_zero.
  destruct (splitlines_shape [] (universal_newlines text) (fun F => F)) as [Hs He].
  fold (readlines text) in Hs, He.
  destruct (line_directive_shape hlslFile Hnl) as [Hd1 [Hd2 _]].
  pose proof (all_terminated (readlines text) He Hlast) as Ht.
  rewrite unescape_constant_stripped. f_equal. f_equal.
  apply map_ext_in. intros ln [<-|Hin].
  - now apply stripped_terminated.
  - rewrite Forall_forall in Hs, Ht. apply stripped_terminated; auto.
Qed.

Lemma unescape_string_constant_witness :
  unescape (string_constant Sample.foo (readlines Sample.foo_text))
  = lit "#line 1 " ++ [DQ] ++ lit "shaders/foo.hlsl" ++ [DQ; NL]
    ++ [NL] ++ lit "float x = 1.0;" ++ [NL] ++ [NL].
Proof.
  rewrite (unescape_string_constant Sample.foo Sample.foo_text eq_refl eq_refl).
  vm_compute. reflexivity.
Defined.

(** ** The entry point that is compiled *)

Lemma compile_job_command (P : OsPath) (a : Args) (entryPointFile t : str) :
  (exists options,
     cmd (compile_job P a entryPointFile t) = slangc a :: entryPointFile :: options)
  /\ exists kind,
       announcement (compile_job P a entryPointFile t)
       = announce entryPointFile (slangc a) kind
           (compiledFile (compile_job P a entryPointFile t)).
Proof.
  unfold compile_job.
  destruct (str_eqb t (lit "metal")); [split; eexists; reflexivity|].
  destruct (str_eqb t (lit "dxil")); split; eexists; reflexivity.
Qed.

Lemma run_packer_returns (w : World) (a : Args) (files : list str)
    (entryPointFile : str) (l : Log) :
  freshness_gate w empty_log = Ret (a, files, entryPointFile) empty_log ->
  packer_enabled (slangc a) entryPointFile = true ->
  binary_packer w a entryPointFile empty_log = Ret tt l ->
  reaches_minifier w a files l.
Proof.
  intros G E K. exists entryPointFile, empty_log. split; [exact G|].
  now rewrite E.
Qed.

(** C10. The entry-point file is chosen by substring containment: the
    candidates are the discovered files whose path contains the entry-point
    name, and in a run that passes the gate with the packer switched on, the
    file handed to the packer is the last candidate in discovery order.  It
    is the one compiled: it is the second word of the command given to
    [subprocess.run] and the file named in the announcement, and the run
    goes the way that the answer to this very command decides. *)
Theorem entry_point_last_containing (w : World) (a : Args) (files : list str)
    (entryPointFile t : str) :
  freshness_gate w empty_log = Ret (a, files, entryPointFile) empty_log ->
  packer_enabled (slangc a) entryPointFile = true ->
  choose_target w (target a) empty_log = Ret t empty_log ->
  let candidates := filter (str_in (mainEntryPoint a)) files in
  let job := compile_job (os_path w) a entryPointFile t in
  (forall f, In f candidates <->
             In f files /\ exists before after, f = before ++ mainEntryPoint a ++ after)
  /\ candidates <> []
  /\ entryPointFile = last candidates []
  /\ (exists options, cmd job = slangc a :: entryPointFile :: options)
  /\ (exists kind,
        announcement job = announce entryPointFile (slangc a) kind (compiledFile job))
  /\ (subprocess_run w (cmd job) = None ->
      run w = (Uncaught OSError,
               {| printed := [announcement job]; packed := None; header := None |}))
  /\ (forall returncode stderr,
        subprocess_run w (cmd job) = Some (returncode, Some stderr) ->
        returncode <> 0%Z ->
        run w = (SysExit (-1),
                 {| printed := [announcement job;
                                lit "Compliation failed on " ++ entryPointFile;
                                stderr];
                    packed := None; header := None |}))
  /\ (forall stderr data,
        subprocess_run w (cmd job) = Some (0%Z, stderr) ->
        read_bytes w (compiledTempFile job) = Some data ->
        length data mod 4 = 0 ->
        open_write w (compiledFile job) = true ->
        exists text,
          pack_words (variableName job) data = Some text
          /\ reaches_minifier w a files
               {| printed := [announcement job];
                  packed := Some (compiledFile job, text); header := None |}).
Proof.
  intros G E T candidates job.
  pose proof (freshness_gate_entry w _ _ _ _ _ G) as He. fold candidates in He.
  destruct (compile_job_command (os_path w) a entryPointFile t) as [Hc Ha].
  fold job in Hc, Ha.
  assert (Hstart :
             binary_packer w a entryPointFile empty_log
             = (match subprocess_run w (cmd job) with
              | None => raise OSError
              | Some (returncode, stderr) =>
                  if negb (returncode =? 0)%Z then
                    print (lit "Compliation failed on " ++ entryPointFile) ;;
                    match stderr with
                    | None => raise UnicodeDecodeError
                    | Some text => print text ;; sys_exit (-1)
                    end
                  else
                    match read_bytes w (compiledTempFile job) with
                    | None => raise OSError
                    | Some data =>
                        match pack_words (variableName job) data with
                        | None => raise IndexError
                        | Some headerStr =>
                            if open_write w (compiledFile job)
                            then write_packed (compiledFile job) headerStr
                            else raise OSError
                        end
                    end
              end)
               {| printed := [announcement job]; packed := None; header := None |}).
  { unfold binary_packer. unfold bind at 1. rewrite T.
    unfold bind at 1. unfold print at 1. reflexivity. }
  split; [|split; [|split; [|split; [|split; [|split; [|split]]]]]].
  - intros f. unfold candidates. now rewrite filter_In, str_in_spec.
  - intros F. rewrite F in He. cbn in He. subst entryPointFile.
    unfold packer_enabled in E. cbn in E. now rewrite andb_false_r in E.
  - exact He.
  - exact Hc.
  - exact Ha.
  - intros S. apply (run_packer_stops w a files entryPointFile _ _ G E).
    rewrite Hstart, S. reflexivity.
  - intros returncode stderr S R.
    apply (run_packer_stops w a files entryPointFile _ _ G E).
    rewrite Hstart, S.
    apply Z.eqb_neq in R. rewrite R. reflexivity.
  - intros stderr data S B M O.
    assert (Hlen : length data = 4 * (length data / 4))
      by (pose proof (Nat.div_mod_eq (length data) 4); lia).
    eexists. split; [exact (pack_words_closed _ data _ Hlen)|].
    apply (run_packer_returns w a files entryPointFile _ G E).
    rewrite Hstart, S, B.
    rewrite (pack_words_closed _ data _ Hlen), O. reflexivity.
Qed.

Lemma entry_point_last_containing_witness :
  run Sample.two_entries
  = (SysExit (-1),
     {| printed :=
          [announce Sample.entry_b (lit "slangc") (lit "SPIRV")
             (lit "out/MainEntryPoints.h");
           lit "Compliation failed on shaders/MainEntryPointsB.slang";
           lit "error: syntax"];
        packed := None; header := None |}).
Proof.
  destruct (entry_point_last_containing Sample.two_entries
              (parse_args Posix.path Sample.args4)
              [Sample.entry; Sample.foo; Sample.entry_b; Sample.clash]
              Sample.entry_b (lit "spirv") eq_refl eq_refl eq_refl)
    as [_ [_ [_ [_ [_ [_ [H _]]]]]]].
  exact (H 1%Z (lit "error: syntax") eq_refl ltac:(discriminate)).
Defined.

(** ** One path for both headers *)


